(** * DocMind: the retrieval pipeline of [Docmind_app.py]

    A shallow embedding of the chunker ([process_text], [process_file]),
    the brute-force nearest-neighbour search ([find_best_match]), the query
    rewriter ([rewrite_query]) and the per-turn chat pipeline of the
    Streamlit script, followed by the properties the specification states
    about them.

    Conventions.
    - A Python [str] is a sequence of Unicode code points: [str] is
      [list codepoint] with [codepoint := N], and [len] is [length].
    - A dict with the keys ["title"] and ["content"] is the record [chunk];
      a dict with the keys ["role"] and ["content"] is the record [message].
    - Scores are rationals: every finite float is one, and [>] on finite
      floats is [>] on the rationals they denote.  [np.dot] is a parameter
      of the model, so nothing depends on how it rounds.
    - The embedding model, the Groq client and the Streamlit widgets are
      collaborators: calls to them are recorded, in order, in the [log] of
      the [world] the code runs in.  A call is taken to return; only the
      reading of an uploaded file, whose exceptions [process_file] catches,
      has an [outcome] that may be an exception. *)

From Stdlib Require Import List Arith NArith QArith Bool Lia Lqa.
From Stdlib Require Strings.String Strings.Ascii Numbers.DecimalString.
From Stdlib Require Numbers.DecimalNat.
Import ListNotations String.StringSyntax.

Local Open Scope list_scope.
Local Open Scope nat_scope.
Local Open Scope string_scope.

(* ================================================================= *)
(** ** Python strings *)

Module PyStr.

Definition codepoint := N.
Definition str := list codepoint.

(** A string literal of the source, character by character. *)
Definition lit (s : String.string) : str :=
  map Ascii.N_of_ascii (String.list_ascii_of_string s).

(** ['\n'] *)
Definition nl : codepoint := 10%N.

Definition is_nl (c : codepoint) : bool := N.eqb c nl.

(** The characters [str.strip()] removes: those for which [str.isspace]
    holds (CPython's [_Py_ascii_whitespace] table below 128 and
    [_PyUnicode_IsWhitespace] above). *)
Definition isspace (c : codepoint) : bool :=
  ((9 <=? c) && (c <=? 13) || (28 <=? c) && (c <=? 32)
   || (c =? 133) || (c =? 160) || (c =? 5760)
   || (8192 <=? c) && (c <=? 8202)
   || (c =? 8232) || (c =? 8233) || (c =? 8239) || (c =? 8287)
   || (c =? 12288))%N.

(** [s.lstrip()] *)
Fixpoint lstrip (s : str) : str :=
  match s with
  | [] => []
  | c :: s' => if isspace c then lstrip s' else s
  end.

(** [s.rstrip()] *)
Definition rstrip (s : str) : str := rev (lstrip (rev s)).

(** [s.strip()] *)
Definition strip (s : str) : str := rstrip (lstrip s).

(** Add a character in front of the piece being scanned. *)
Definition push_front (c : codepoint) (pieces : list str) : list str :=
  match pieces with
  | [] => [[c]]
  | p :: ps => (c :: p) :: ps
  end.

(** [s.split('\n\n')]: the text is scanned from the left, every
    occurrence of two consecutive newlines ends a piece and the scan goes on
    after it.  The result is never empty: [''.split('\n\n') == ['']]. *)
Fixpoint split_nn (s : str) : list str :=
  match s with
  | [] => [[]]
  | c :: rest =>
      match rest with
      | [] => [[c]]
      | d :: rest' =>
          if is_nl c && is_nl d then [] :: split_nn rest'
          else push_front c (split_nn rest)
      end
  end.

(** ['\n\n'.join(pieces)] *)
Fixpoint join_nn (pieces : list str) : str :=
  match pieces with
  | [] => []
  | [p] => p
  | p :: ps => p ++ nl :: nl :: join_nn ps
  end.

(** ['\n\n' in s] *)
Fixpoint has_nn (s : str) : bool :=
  match s with
  | [] => false
  | c :: rest =>
      match rest with
      | [] => false
      | d :: _ => (is_nl c && is_nl d) || has_nn rest
      end
  end.

(** [sub in s] for strings. *)
Definition contains (s sub : str) : Prop :=
  exists before after, s = before ++ sub ++ after.

(** [str(n)] for a non-negative integer. *)
Definition str_of_nat (n : nat) : str :=
  lit (DecimalString.NilEmpty.string_of_uint (Nat.to_uint n)).

(** [enumerate(l)] as a list of pairs. *)
Definition enumerate {A} (l : list A) : list (nat * A) :=
  combine (seq 0 (length l)) l.

End PyStr.
Import PyStr.

(* ================================================================= *)
(** ** The chunker *)

Record chunk := mkChunk { title : str; content : str }.

(** [f"{filename} - Section {i+1}"] *)
Definition section_title (filename : str) (i : nat) : str :=
  filename ++ lit " - Section " ++ str_of_nat (i + 1).

(** The body of the loop of [process_text], on the list [chunks]. *)
Definition process_text_body (filename : str) (chunks : list chunk)
    (ip : nat * str) : list chunk :=
  let '(i, p) := ip in
  if 20 <? length (strip p)
  then chunks ++ [ {| title := section_title filename i; content := strip p |} ]
  else chunks.

Definition process_text (text filename : str) : list chunk :=
  let paragraphs := split_nn text in
  fold_left (process_text_body filename) (enumerate paragraphs) [].

(** [s.startswith(prefix)] *)
Fixpoint starts_with (s prefix : str) : bool :=
  match prefix, s with
  | [], _ => true
  | _ :: _, [] => false
  | a :: prefix', b :: s' => N.eqb a b && starts_with s' prefix'
  end.

(** [s.endswith(suffix)] *)
Definition endswith (s suffix : str) : bool :=
  starts_with (rev s) (rev suffix).

(* ================================================================= *)
(** ** Collaborators and the world the script runs in *)

Module Msg.
(** A chat turn: [{"role": ..., "content": ...}]. *)
Record message := mk { role : str; content : str }.
End Msg.
Definition message := Msg.message.

(** Calls that leave the program, in the order they are made. *)
Inductive event :=
| Encode (text : str)
    (** [embed_model.encode(text)] *)
| ChatCompletionsCreate (messages : list message) (model : str) (temperature : Q)
    (** [client.chat.completions.create(messages=, model=, temperature=)] *)
| StChatMessage (name body : str)
    (** [st.chat_message(name).markdown(body)] *)
| StStatus (label : str)
    (** [st.status(label)] *)
| StatusWrite (body : str)
    (** [status.write(body)] *)
| StatusUpdate (label state : str) (expanded : option bool)
    (** [status.update(label=, state=, expanded=)] *)
| StWarning (body : str)
| StError (body : str)
| StSpinner (text : str)
| StSidebarSuccess (body : str).

(** [messages] is [st.session_state.messages], the transcript. *)
Record world := mkWorld { messages : list message; log : list event }.

(** Computations that read and write the world. *)
Definition App (A : Type) : Type := world -> A * world.

Definition ret {A} (a : A) : App A := fun w => (a, w).

Definition bind {A B} (c : App A) (k : A -> App B) : App B :=
  fun w => let '(a, w') := c w in k a w'.

Notation "x <- c ;; k" := (bind c (fun x => k))
  (at level 61, c at next level, right associativity).
Notation "c ;; k" := (bind c (fun _ => k))
  (at level 61, right associativity).

Definition emit (e : event) : App unit :=
  fun w => (tt, {| messages := messages w; log := log w ++ [e] |}).

(** Reading [st.session_state.messages]. *)
Definition get_messages : App (list message) :=
  fun w => (messages w, w).

(** [st.session_state.messages.append(m)] *)
Definition messages_append (m : message) : App unit :=
  fun w => (tt, {| messages := messages w ++ [m]; log := log w |}).

(** [for x in l: acc = body(acc, x)] *)
Fixpoint for_each {A S} (body : S -> A -> App S) (l : list A) (acc : S)
    : App S :=
  match l with
  | [] => ret acc
  | x :: l' => acc' <- body acc x ;; for_each body l' acc'
  end.

(** The value a computation returns and the world it leaves. *)
Definition result {A} (c : App A) (w : world) : A := fst (c w).
Definition after {A} (c : App A) (w : world) : world := snd (c w).

(** [score > highest_score] *)
Definition Qgtb (x y : Q) : bool := negb (Qle_bool x y).

(** What reading a file gives: a value, or an exception with its text. *)
Inductive outcome (A : Type) :=
| Returns (a : A)
| Raises (e : str).
Arguments Returns {A} a.
Arguments Raises {A} e.

Section Pipeline.

(** A numpy vector, and [np.dot] on two of them. *)
Variable ndarray : Type.
Variable np_dot : ndarray -> ndarray -> Q.

(** The embedding model: its [encode] method, assumed deterministic. *)
Record SentenceTransformer := { encode : str -> ndarray }.

(** The text-generation client.  Its answer may depend on everything that
    happened before the call, which covers sampling at a temperature
    above zero. *)
Record Groq :=
  { create : list event -> list message -> str -> Q -> str }.

Definition call_encode (embed_model : SentenceTransformer) (text : str)
    : App ndarray :=
  emit (Encode text) ;; ret (encode embed_model text).

Definition call_create (client : Groq) (msgs : list message) (model : str)
    (temperature : Q) : App str :=
  fun w =>
    (create client (log w) msgs model temperature,
     {| messages := messages w;
        log := log w ++ [ChatCompletionsCreate msgs model temperature] |}).

(* ----------------------------------------------------------------- *)
(** *** [find_best_match] *)

(** The body of the loop, on the pair [(best_doc, highest_score)]. *)
Definition find_best_match_body (embed_model : SentenceTransformer)
    (query_embed : ndarray) (acc : option chunk * Q) (doc : chunk)
    : App (option chunk * Q) :=
  doc_embed <- call_encode embed_model (content doc) ;;
  let score := np_dot query_embed doc_embed in
  if Qgtb score (snd acc) then ret (Some doc, score) else ret acc.

Definition find_best_match (query : str) (documents : list chunk)
    (embed_model : SentenceTransformer) : App (option chunk) :=
  match documents with
  | [] => ret None
  | _ :: _ =>
      query_embed <- call_encode embed_model query ;;
      acc <- for_each (find_best_match_body embed_model query_embed)
               documents (None, (-1 # 1)%Q) ;;
      ret (fst acc)
  end.

(* ----------------------------------------------------------------- *)
(** *** [rewrite_query] *)

(** [l[-2:]] *)
Definition last_two {A} (l : list A) : list A := skipn (length l - 2) l.

Definition llama : str := lit "llama-3.3-70b-versatile".

Definition rewrite_system_prompt : str :=
  [nl]
  ++ lit "    Rewrite the following question to be self-contained based on the history. "
  ++ [nl]
  ++ lit "    If the question is already clear, return it as is. "
  ++ [nl]
  ++ lit "    Do NOT answer the question, just rewrite it for a search engine."
  ++ [nl]
  ++ lit "    ".

Definition history_line (history_str : str) (msg : message) : str :=
  history_str ++ Msg.role msg ++ lit ": " ++ Msg.content msg ++ [nl].

Definition rewrite_query (user_input : str) (chat_history : list message)
    (client : Groq) : App str :=
  match chat_history with
  | [] => ret user_input
  | _ :: _ =>
      let history_str := fold_left history_line (last_two chat_history) [] in
      call_create client
        [ Msg.mk (lit "system") rewrite_system_prompt;
          Msg.mk (lit "user")
            (lit "History:" ++ [nl] ++ history_str ++ [nl; nl]
             ++ lit "Question: " ++ user_input) ]
        llama (3 # 10)%Q
  end.

(* ----------------------------------------------------------------- *)
(** *** One chat turn *)

(** [f"Source: {best_match['title']}\nContent: {best_match['content']}"] *)
Definition context_text (best_match : chunk) : str :=
  lit "Source: " ++ title best_match ++ [nl]
  ++ lit "Content: " ++ content best_match.

Definition system_msg (best_match : chunk) : str :=
  [nl]
  ++ lit "            You are a helpful assistant. Use the following context to answer the user's question."
  ++ [nl]
  ++ lit "            "
  ++ [nl]
  ++ lit "            CONTEXT:"
  ++ [nl]
  ++ lit "            " ++ context_text best_match
  ++ [nl]
  ++ lit "            ".

Definition no_info_warning : str :=
  lit "I couldn't find information about that in the documents.".

(** From [st.chat_message("user")] to the call of [find_best_match]:
    the rewriting and the search of the turn. *)
Definition chat_search (prompt : str) (documents : list chunk)
    (embed_model : SentenceTransformer) (client : Groq)
    : App (option chunk) :=
  emit (StChatMessage (lit "user") prompt) ;;
  emit (StStatus (lit "Thinking...")) ;;
  emit (StatusWrite (lit "Understanding context...")) ;;
  history <- get_messages ;;
  search_query <- rewrite_query prompt history client ;;
  emit (StatusWrite (lit "Searching for: *'" ++ search_query ++ lit "'*")) ;;
  find_best_match search_query documents embed_model.

(** The branch [if best_match:]. *)
Definition chat_answer (prompt : str) (best_match : chunk) (client : Groq)
    : App unit :=
  emit (StatusWrite (lit "Found relevant info!")) ;;
  history <- get_messages ;;
  let full_messages :=
    fold_left (fun full msg => full ++ [msg]) history
      [Msg.mk (lit "system") (system_msg best_match)]
    ++ [Msg.mk (lit "user") prompt] in
  response_text <- call_create client full_messages llama (1 # 2)%Q ;;
  messages_append (Msg.mk (lit "user") prompt) ;;
  messages_append (Msg.mk (lit "assistant") response_text) ;;
  emit (StChatMessage (lit "assistant") response_text) ;;
  emit (StatusUpdate (lit "Complete!") (lit "complete") (Some false)).

(** The branch [else:]. *)
Definition chat_decline : App unit :=
  emit (StWarning no_info_warning) ;;
  emit (StatusUpdate (lit "No info found") (lit "error") None).

(** The body of [if prompt := st.chat_input(...)].  A chunk is a dict with
    two keys, so [if best_match:] only tests for [None]. *)
Definition chat_turn (prompt : str) (documents : list chunk)
    (embed_model : SentenceTransformer) (client : Groq) : App unit :=
  best_match <- chat_search prompt documents embed_model client ;;
  match best_match with
  | Some doc => chat_answer prompt doc client
  | None => chat_decline
  end.

(* ----------------------------------------------------------------- *)
(** *** Loading the documents *)

(** An uploaded file: its name, what [pypdf] extracts from its pages and
    what [read().decode("utf-8")] gives. *)
Record UploadedFile := mkFile
  { name : str;
    pdf_pages : outcome (list str);
    read_decode : outcome str }.

(** The [try] block of [process_file] up to the text. *)
Definition extract_text (uploaded_file : UploadedFile) : outcome str :=
  if endswith (name uploaded_file) (lit ".pdf") then
    match pdf_pages uploaded_file with
    | Returns pages =>
        Returns (fold_left (fun text page => text ++ page ++ [nl; nl]) pages [])
    | Raises e => Raises e
    end
  else read_decode uploaded_file.

Definition process_file (uploaded_file : UploadedFile) : App (list chunk) :=
  match extract_text uploaded_file with
  | Returns text => ret (process_text text (name uploaded_file))
  | Raises e => emit (StError (lit "Error reading file: " ++ e)) ;; ret []
  end.

Definition demo_documents : list chunk :=
  [ {| title := lit "Demo: Travel";
       content := lit "Meals covered up to $50/day. Hotels up to $200/night." |} ].

(** Lines 104 to 114: the list [documents] of one run of the script. *)
Definition load_documents (uploaded_files : list UploadedFile)
    : App (list chunk) :=
  match uploaded_files with
  | _ :: _ =>
      emit (StSpinner (lit "Processing Documents...")) ;;
      documents <- for_each
        (fun documents file =>
           docs <- process_file file ;; ret (documents ++ docs))
        uploaded_files [] ;;
      emit (StSidebarSuccess
              (lit "Loaded " ++ str_of_nat (length documents)
               ++ lit " text chunks!")) ;;
      ret documents
  | [] => ret demo_documents
  end.

(** Lines 117 to 122: the past turns are shown.  A session starts with the
    empty transcript, which is what the script stores when the session has
    none. *)
Definition show_history : App unit :=
  history <- get_messages ;;
  for_each (fun _ message =>
              emit (StChatMessage (Msg.role message) (Msg.content message)))
    history tt.

(** One run of the script below the sidebar.  [chat_input] is what
    [st.chat_input] returns: [None], or the text the user submitted. *)
Definition script_run (uploaded_files : list UploadedFile)
    (chat_input : option str) (embed_model : SentenceTransformer)
    (client : Groq) : App unit :=
  documents <- load_documents uploaded_files ;;
  show_history ;;
  match chat_input with
  | Some (c :: prompt') =>
      chat_turn (c :: prompt') documents embed_model client
  | _ => ret tt
  end.

End Pipeline.

Arguments encode {ndarray} _ _.
Arguments call_encode {ndarray} embed_model text.
Arguments find_best_match_body {ndarray} np_dot embed_model query_embed acc doc.
Arguments find_best_match {ndarray} np_dot query documents embed_model.
Arguments chat_search {ndarray} np_dot prompt documents embed_model client.
Arguments chat_turn {ndarray} np_dot prompt documents embed_model client.
Arguments script_run {ndarray} np_dot uploaded_files chat_input embed_model
  client.

(* ================================================================= *)
(** ** What the properties are stated with *)

(** A paragraph the chunker keeps. *)
Definition long_enough (p : str) : bool := 20 <? length (strip p).

(** The chunk made of the paragraph [snd ip] at index [fst ip]. *)
Definition chunk_of (filename : str) (ip : nat * str) : chunk :=
  {| title := section_title filename (fst ip); content := strip (snd ip) |}.

Section Scores.

Variable ndarray : Type.
Variable np_dot : ndarray -> ndarray -> Q.
Variable embed_model : SentenceTransformer ndarray.

(** The score of a chunk for a query: the dot product of the two
    embeddings. *)
Definition score (query : str) (doc : chunk) : Q :=
  np_dot (encode embed_model query) (encode embed_model (content doc)).

(** The loop of [find_best_match] without its calls. *)
Definition best_step (query : str) (acc : option chunk * Q) (doc : chunk)
    : option chunk * Q :=
  if Qgtb (score query doc) (snd acc) then (Some doc, score query doc)
  else acc.

(** What the loop leaves in [best_doc], from its initial values. *)
Definition best_of (query : str) (documents : list chunk) : option chunk :=
  fst (fold_left (best_step query) documents (None, (-1 # 1)%Q)).

(** The calls to [encode] one search makes. *)
Definition encode_calls (query : str) (documents : list chunk)
    : list event :=
  match documents with
  | [] => []
  | _ :: _ => Encode query :: map (fun doc => Encode (content doc)) documents
  end.

(** [doc] is the first chunk of [documents] with the greatest score. *)
Definition first_argmax (query : str) (documents : list chunk) (doc : chunk)
    : Prop :=
  exists before after_,
    documents = before ++ doc :: after_
    /\ (forall d, In d before -> (score query d < score query doc)%Q)
    /\ (forall d, In d after_ -> (score query d <= score query doc)%Q).

End Scores.

Arguments score {ndarray} np_dot embed_model query doc.
Arguments best_step {ndarray} np_dot embed_model query acc doc.
Arguments best_of {ndarray} np_dot embed_model query documents.
Arguments first_argmax {ndarray} np_dot embed_model query documents doc.

(** The messages of the answer request: the system message, the
    transcript, the question. *)
Definition answer_request (history : list message) (doc : chunk)
    (prompt : str) : list message :=
  Msg.mk (lit "system") (system_msg doc) :: history
  ++ [Msg.mk (lit "user") prompt].

(** The answer of the client to the answer request of a turn that starts
    its answer branch in the world [w]. *)
Definition answer_text (client : Groq) (w : world) (doc : chunk)
    (prompt : str) : str :=
  create client (log w ++ [StatusWrite (lit "Found relevant info!")])
    (answer_request (messages w) doc prompt) llama (1 # 2)%Q.

(** The chunks a file gives, without the report of an error. *)
Definition file_chunks (uploaded_file : UploadedFile) : list chunk :=
  match extract_text uploaded_file with
  | Returns text => process_text text (name uploaded_file)
  | Raises _ => []
  end.

(** A computation that leaves the transcript as it is. *)
Definition keeps_messages {A} (c : App A) : Prop :=
  forall w, messages (after c w) = messages w.

(** A computation that only adds turns at the end of the transcript. *)
Definition appends_messages {A} (c : App A) : Prop :=
  forall w, exists suffix, messages (after c w) = messages w ++ suffix.

(** What one run of the script is given. *)
Record run_input := mkRun
  { uploaded_files : list UploadedFile; chat_input : option str }.

(** Several runs of the script in one session. *)
Definition session {ndarray} (np_dot : ndarray -> ndarray -> Q)
    (embed_model : SentenceTransformer ndarray) (client : Groq)
    (runs : list run_input) : App unit :=
  for_each
    (fun _ r =>
       script_run np_dot (uploaded_files r) (chat_input r)
         embed_model client)
    runs tt.

(* ----------------------------------------------------------------- *)
(** *** Sample collaborators and inputs *)

(** The exact dot product of two vectors of rationals. *)
Definition dot_exact (a b : list Q) : Q :=
  fold_left Qplus (map (fun xy => (fst xy * snd xy)%Q) (combine a b)) 0%Q.

(** A stub embedding with hand-chosen unit vectors, by first letter:
    [M]eals, [H]otels, [W]hat about hotels. *)
Definition stub_model : SentenceTransformer (list Q) :=
  {| encode := fun text =>
       match text with
       | 77%N :: _ => [1%Q; 0%Q]
       | 72%N :: _ => [0%Q; 1%Q]
       | 87%N :: _ => [(3 # 5)%Q; (4 # 5)%Q]
       | _ => [0%Q; (-1 # 1)%Q]
       end |}.

(** A stub embedding that sends the query [q] to the unit vector [1] and
    every other text to the opposite unit vector. *)
Definition opposed_model : SentenceTransformer (list Q) :=
  {| encode := fun text =>
       match text with
       | 113%N :: _ => [1%Q]
       | _ => [(-1 # 1)%Q]
       end |}.

(** A stub client: one text for every rewriting request (temperature
    0.3), another for every answer request. *)
Definition stub_client : Groq :=
  {| create := fun _ _ _ temperature =>
       if Qeq_bool temperature (3 # 10) then lit "What is the hotel limit?"
       else lit "Up to $200 per night." |}.

Definition empty_world : world := {| messages := []; log := [] |}.

Definition meals : str := lit "Meals covered up to $50/day.".
Definition hotels : str := lit "Hotels up to $200/night.".
Definition two_paragraphs : str := meals ++ [nl; nl] ++ hotels.
Definition three_paragraphs : str :=
  meals ++ [nl; nl] ++ lit "See below." ++ [nl; nl] ++ hotels.
Definition demo_chunks : list chunk := process_text two_paragraphs (lit "Demo").
Definition what_about_hotels : str := lit "What about hotels?".

(** One old turn, as a transcript. *)
Definition one_exchange : list message :=
  [ Msg.mk (lit "user") (lit "What is covered?");
    Msg.mk (lit "assistant") (lit "Meals and hotels.") ].

Definition opposed_documents : list chunk :=
  [ {| title := lit "t"; content := lit "c" |} ].

Definition hotels_chunk : chunk :=
  {| title := lit "Demo - Section 2"; content := hotels |}.

(** A session that has had one exchange. *)
Definition world_one_exchange : world :=
  {| messages := one_exchange; log := [] |}.

(** A text file whose only paragraph is too short to be kept. *)
Definition short_file : UploadedFile :=
  {| name := lit "note.txt";
     pdf_pages := Raises (lit "not a PDF");
     read_decode := Returns (lit "See below.") |}.

(* ================================================================= *)
(** ** The sidebar and a whole run of the script *)

(** How a block of the script ends: the run goes on, [st.rerun()] restarts
    it, or [st.stop()] ends it. *)
Inductive ended := Continues | Reruns | Stops.

(** [st.session_state.messages = l] *)
Definition set_messages (l : list message) : App unit :=
  fun w => (tt, {| messages := l; log := log w |}).

(** The warning of line 98: a warning sign, a variation selector and the
    text. *)
Definition enter_key_warning : str :=
  [9888%N; 65039%N] ++ lit " Enter Groq Key to start.".

(** Lines 91 to 99.  [api_key] is what the text input holds and
    [clear_clicked] what the button returns; the two input widgets record
    nothing. *)
Definition sidebar (api_key : str) (clear_clicked : bool) : App ended :=
  if clear_clicked then set_messages [] ;; ret Reruns
  else
    match api_key with
    | [] => emit (StWarning enter_key_warning) ;; ret Stops
    | _ :: _ => ret Continues
    end.

(** One run of the script from the sidebar on.  The page header of lines
    9, 88 and 89 writes no state and is not recorded; the client and the
    embedding model of lines 101 and 102 are the two parameters. *)
Definition app_run {ndarray} (np_dot : ndarray -> ndarray -> Q)
    (api_key : str) (uploaded_files : list UploadedFile)
    (clear_clicked : bool) (chat_input : option str)
    (embed_model : SentenceTransformer ndarray) (client : Groq)
    : App ended :=
  e <- sidebar api_key clear_clicked ;;
  match e with
  | Continues =>
      script_run np_dot uploaded_files chat_input embed_model client ;;
      ret Continues
  | Reruns => ret Reruns
  | Stops => ret Stops
  end.

(** What the user does before one run. *)
Record app_input := mkInput
  { in_api_key : str;
    in_files : list UploadedFile;
    in_clear : bool;
    in_chat : option str }.

(** Several runs in one session, with the sidebar. *)
Definition app_session {ndarray} (np_dot : ndarray -> ndarray -> Q)
    (embed_model : SentenceTransformer ndarray) (client : Groq)
    (inputs : list app_input) : App unit :=
  for_each
    (fun _ i =>
       app_run np_dot (in_api_key i) (in_files i) (in_clear i) (in_chat i)
         embed_model client ;;
       ret tt)
    inputs tt.

(* ----------------------------------------------------------------- *)
(** *** What the further properties are stated with *)

(** A transcript made of exchanges: a user turn, then an assistant turn. *)
Fixpoint paired (l : list message) : Prop :=
  match l with
  | [] => True
  | u :: rest =>
      match rest with
      | [] => False
      | a :: rest' =>
          Msg.role u = lit "user" /\ Msg.role a = lit "assistant"
          /\ paired rest'
      end
  end.

Definition is_create (e : event) : bool :=
  match e with ChatCompletionsCreate _ _ _ => true | _ => false end.

Definition is_encode (e : event) : bool :=
  match e with Encode _ => true | _ => false end.

(** The number of calls to the client, and to the embedding model, in a
    log. *)
Definition count_create (l : list event) : nat :=
  length (filter is_create l).
Definition count_encode (l : list event) : nat :=
  length (filter is_encode l).

(** How a turn of the transcript is shown. *)
Definition render (m : message) : event :=
  StChatMessage (Msg.role m) (Msg.content m).

(** The error a file reports, if reading it raises. *)
Definition file_errors (uploaded_file : UploadedFile) : list event :=
  match extract_text uploaded_file with
  | Returns _ => []
  | Raises e => [StError (lit "Error reading file: " ++ e)]
  end.

(** What loading the given files records: nothing without files. *)
Definition load_log (files : list UploadedFile) : list event :=
  match files with
  | [] => []
  | _ :: _ =>
      [StSpinner (lit "Processing Documents...")]
      ++ flat_map file_errors files
      ++ [StSidebarSuccess
            (lit "Loaded "
             ++ str_of_nat (length (flat_map file_chunks files))
             ++ lit " text chunks!")]
  end.

(** A paragraph with no blank line inside and no newline at its end. *)
Definition tidy (p : str) : bool :=
  negb (has_nn p) && negb (is_nl (last p 0%N)).

(** The messages of the rewriting request for a question and a history. *)
Definition rewrite_request (user_input : str) (recent : list message)
    : list message :=
  [ Msg.mk (lit "system") rewrite_system_prompt;
    Msg.mk (lit "user")
      (lit "History:" ++ [nl] ++ fold_left history_line recent []
       ++ [nl; nl] ++ lit "Question: " ++ user_input) ].

(** The world in which a turn calls [rewrite_query]. *)
Definition before_rewrite (prompt : str) (w : world) : world :=
  {| messages := messages w;
     log := log w
            ++ [ StChatMessage (lit "user") prompt;
                 StStatus (lit "Thinking...");
                 StatusWrite (lit "Understanding context...") ] |}.

(** The query a turn searches with. *)
Definition search_query_of (prompt : str) (client : Groq) (w : world) : str :=
  result (rewrite_query prompt (messages w) client) (before_rewrite prompt w).

(** A PDF of two pages and a text file that cannot be decoded. *)
Definition two_page_pdf : UploadedFile :=
  {| name := lit "policy.pdf";
     pdf_pages := Returns [meals; hotels];
     read_decode := Raises (lit "invalid start byte") |}.

Definition broken_file : UploadedFile :=
  {| name := lit "broken.txt";
     pdf_pages := Raises (lit "not a PDF");
     read_decode := Raises (lit "invalid start byte") |}.

(* ================================================================= *)
(** ** Properties of the string operations *)

Lemma lstrip_head (s : str) :
  lstrip s = [] \/ exists c r, lstrip s = c :: r /\ isspace c = false.
Proof.
  induction s as [|c s IH]; simpl.
  - now left.
  - destruct (isspace c) eqn:E; [exact IH|].
    right. now exists c, s.
Qed.

Lemma lstrip_fixed (c : codepoint) (r : str) :
  isspace c = false -> lstrip (c :: r) = c :: r.
Proof. intros E. simpl. now rewrite E. Qed.

Lemma lstrip_idem (s : str) : lstrip (lstrip s) = lstrip s.
Proof.
  destruct (lstrip_head s) as [-> | (c & r & -> & E)]; [reflexivity|].
  now apply lstrip_fixed.
Qed.

Lemma lstrip_snoc (l : str) (c : codepoint) :
  isspace c = false -> lstrip (l ++ [c]) = lstrip l ++ [c].
Proof.
  intros E. induction l as [|a l IH]; simpl.
  - now rewrite E.
  - now destruct (isspace a).
Qed.

Lemma rstrip_cons (c : codepoint) (r : str) :
  isspace c = false -> rstrip (c :: r) = c :: rstrip r.
Proof.
  intros E. unfold rstrip. simpl rev at 2.
  rewrite lstrip_snoc by exact E.
  rewrite rev_app_distr. reflexivity.
Qed.

Lemma rstrip_idem (s : str) : rstrip (rstrip s) = rstrip s.
Proof.
  unfold rstrip. now rewrite rev_involutive, lstrip_idem.
Qed.

(** A stripped string is a fixed point of [strip]. *)
Lemma strip_idem (s : str) : strip (strip s) = strip s.
Proof.
  unfold strip.
  destruct (lstrip_head s) as [-> | (c & r & -> & E)]; [reflexivity|].
  rewrite (rstrip_cons c r E), (lstrip_fixed c _ E).
  rewrite <- (rstrip_cons c r E). apply rstrip_idem.
Qed.

Lemma lstrip_length (s : str) : length (lstrip s) <= length s.
Proof.
  induction s as [|c s IH]; simpl; [lia|].
  destruct (isspace c); simpl; lia.
Qed.

Lemma strip_length (s : str) : length (strip s) <= length s.
Proof.
  unfold strip, rstrip. rewrite length_rev.
  etransitivity; [apply lstrip_length|].
  rewrite length_rev. apply lstrip_length.
Qed.

Lemma push_front_join (c : codepoint) (pieces : list str) :
  pieces <> [] -> join_nn (push_front c pieces) = c :: join_nn pieces.
Proof.
  destruct pieces as [|p [|q ps]]; simpl; congruence.
Qed.

Lemma split_nn_cons2 (c d : codepoint) (rest : str) :
  split_nn (c :: d :: rest)
  = if is_nl c && is_nl d then [] :: split_nn rest
    else push_front c (split_nn (d :: rest)).
Proof. reflexivity. Qed.

Lemma push_front_nonempty (c : codepoint) (pieces : list str) :
  push_front c pieces <> [].
Proof. destruct pieces; simpl; congruence. Qed.

Lemma split_nn_nonempty (s : str) : split_nn s <> [].
Proof.
  destruct s as [|c [|d rest]]; try (simpl; congruence).
  rewrite split_nn_cons2.
  destruct (is_nl c && is_nl d); [congruence|apply push_front_nonempty].
Qed.

(** Joining the pieces with two newlines gives the text back: the pieces
    are the paragraphs of the text, in the order of the text. *)
Lemma join_split_nn (s : str) : join_nn (split_nn s) = s.
Proof.
  assert (H : forall s, join_nn (split_nn s) = s
                        /\ forall c, join_nn (split_nn (c :: s)) = c :: s).
  { clear s. induction s as [|d s [IH1 IH2]]; split; try reflexivity.
    - apply IH2.
    - intros c. rewrite split_nn_cons2.
      destruct (is_nl c && is_nl d) eqn:E.
      + apply andb_prop in E. destruct E as [Ec Ed].
        apply N.eqb_eq in Ec, Ed. subst c d.
        pose proof (split_nn_nonempty s) as Hne.
        simpl. destruct (split_nn s) eqn:Es; [congruence|].
        rewrite <- IH1. reflexivity.
      + rewrite push_front_join by apply (split_nn_nonempty (d :: s)).
        now rewrite IH2. }
  apply H.
Qed.

Lemma split_nn_head (d : codepoint) (rest : str) :
  exists p ps, split_nn (d :: rest) = p :: ps
               /\ (p = [] \/ exists p', p = d :: p').
Proof.
  destruct rest as [|e r].
  - exists [d], []. split; [reflexivity|]. right. now exists [].
  - rewrite split_nn_cons2. destruct (is_nl d && is_nl e).
    + exists [], (split_nn r). split; [reflexivity|now left].
    + destruct (split_nn (e :: r)) as [|q qs]; simpl.
      * exists [d], []. split; [reflexivity|]. right. now exists [].
      * exists (d :: q), qs. split; [reflexivity|]. right. now exists q.
Qed.

(** No piece of the split has two newlines in a row. *)
Lemma split_nn_pieces (s : str) :
  Forall (fun p => has_nn p = false) (split_nn s).
Proof.
  assert (H : forall s, Forall (fun p => has_nn p = false) (split_nn s)
                        /\ forall c, Forall (fun p => has_nn p = false)
                                       (split_nn (c :: s))).
  { clear s. induction s as [|d s [IH1 IH2]]; split.
    - now constructor.
    - intros c. now constructor.
    - apply IH2.
    - intros c. rewrite split_nn_cons2.
      destruct (is_nl c && is_nl d) eqn:E; [now constructor|].
      specialize (IH2 d).
      destruct (split_nn_head d s) as (p & ps & Hs & Hp).
      rewrite Hs in IH2 |- *. inversion IH2 as [|? ? Hp1 Hps]; subst.
      simpl. constructor; [|exact Hps].
      destruct Hp as [-> | [p' ->]]; [reflexivity|].
      change (has_nn (c :: d :: p'))
        with ((is_nl c && is_nl d) || has_nn (d :: p')).
      now rewrite E, Hp1. }
  apply H.
Qed.

Lemma In_enumerate_from {A} (l : list A) (a i : nat) (x : A) :
  In (i, x) (combine (seq a (length l)) l)
  <-> a <= i /\ nth_error l (i - a) = Some x.
Proof.
  revert a. induction l as [|y l IH]; intros a; simpl.
  - split; [tauto|]. intros [_ H]. now destruct (i - a).
  - rewrite IH. split.
    + intros [H | [H1 H2]].
      * inversion H; subst. split; [lia|]. now rewrite Nat.sub_diag.
      * split; [lia|]. replace (i - a) with (S (i - S a)) by lia. exact H2.
    + intros [H1 H2]. destruct (Nat.eq_dec a i) as [->|Hne].
      * rewrite Nat.sub_diag in H2. simpl in H2. left. congruence.
      * right. split; [lia|].
        replace (i - a) with (S (i - S a)) in H2 by lia. exact H2.
Qed.

Lemma In_enumerate {A} (l : list A) (i : nat) (x : A) :
  In (i, x) (enumerate l) <-> nth_error l i = Some x.
Proof.
  unfold enumerate. rewrite In_enumerate_from, Nat.sub_0_r.
  split; [tauto|]. split; [lia|assumption].
Qed.

Lemma map_snd_enumerate {A} (l : list A) : map snd (enumerate l) = l.
Proof.
  unfold enumerate. generalize 0.
  induction l as [|x l IH]; intros a; simpl; [reflexivity|].
  now rewrite IH.
Qed.

(* ================================================================= *)
(** ** The chunker *)

Lemma process_text_loop (filename : str) (l : list (nat * str))
    (chunks : list chunk) :
  fold_left (process_text_body filename) l chunks
  = chunks ++ map (chunk_of filename)
                  (filter (fun ip => long_enough (snd ip)) l).
Proof.
  revert chunks. induction l as [|[i p] l IH]; intros chunks; simpl.
  - now rewrite app_nil_r.
  - rewrite IH. unfold long_enough at 2. simpl.
    destruct (20 <? length (strip p)); [|reflexivity].
    now rewrite <- app_assoc.
Qed.

(** The loop of [process_text] keeps the paragraphs that are long enough,
    each with its index in the split. *)
Lemma process_text_filter (text filename : str) :
  process_text text filename
  = map (chunk_of filename)
        (filter (fun ip => long_enough (snd ip)) (enumerate (split_nn text))).
Proof. unfold process_text. now rewrite process_text_loop. Qed.

Lemma filter_map_comm {A B} (f : A -> B) (p : B -> bool) (l : list A) :
  filter p (map f l) = map f (filter (fun x => p (f x)) l).
Proof.
  induction l as [|x l IH]; simpl; [reflexivity|].
  rewrite IH. now destruct (p (f x)).
Qed.

Lemma process_text_contents (text filename : str) :
  map content (process_text text filename)
  = map strip (filter long_enough (split_nn text)).
Proof.
  rewrite process_text_filter, map_map. simpl.
  rewrite <- (map_snd_enumerate (split_nn text)) at 2.
  rewrite filter_map_comm, map_map. reflexivity.
Qed.

Lemma In_process_text (text filename : str) (c : chunk) :
  In c (process_text text filename)
  <-> exists i p, nth_error (split_nn text) i = Some p
                  /\ 20 < length (strip p)
                  /\ c = {| title := section_title filename i;
                            content := strip p |}.
Proof.
  rewrite process_text_filter, in_map_iff. split.
  - intros ([i p] & <- & H). apply filter_In in H. destruct H as [H1 H2].
    exists i, p. apply In_enumerate in H1. apply Nat.ltb_lt in H2.
    now repeat split.
  - intros (i & p & H1 & H2 & ->). exists (i, p). split; [reflexivity|].
    apply filter_In. split; [now apply In_enumerate|].
    now apply Nat.ltb_lt.
Qed.

(* ================================================================= *)
(** ** Running computations *)

Lemma world_eta (w : world) :
  {| messages := messages w; log := log w |} = w.
Proof. now destruct w. Qed.

Lemma bind_run {A B} (c : App A) (k : A -> App B) (w : world) :
  bind c k w = k (result c w) (after c w).
Proof. unfold bind, result, after. now destruct (c w). Qed.

Lemma emit_run (e : event) (w : world) :
  emit e w = (tt, {| messages := messages w; log := log w ++ [e] |}).
Proof. reflexivity. Qed.

Lemma Qgtb_lt (x y : Q) : Qgtb x y = true <-> (y < x)%Q.
Proof.
  unfold Qgtb. rewrite negb_true_iff, <- not_true_iff_false, Qle_bool_iff.
  split; [apply Qnot_le_lt | apply Qlt_not_le].
Qed.

Lemma Qgtb_le (x y : Q) : Qgtb x y = false <-> (x <= y)%Q.
Proof.
  unfold Qgtb. now rewrite negb_false_iff, Qle_bool_iff.
Qed.

(* ================================================================= *)
(** ** The search *)

Section SearchFacts.

Variable ndarray : Type.
Variable np_dot : ndarray -> ndarray -> Q.
Variable embed_model : SentenceTransformer ndarray.


Lemma call_encode_run (text : str) (w : world) :
  call_encode embed_model text w
  = (encode embed_model text,
     {| messages := messages w; log := log w ++ [Encode text] |}).
Proof. reflexivity. Qed.

Lemma find_best_match_body_run (query : str) (acc : option chunk * Q)
    (doc : chunk) (w : world) :
  find_best_match_body np_dot embed_model (encode embed_model query)
    acc doc w
  = (best_step np_dot embed_model query acc doc,
     {| messages := messages w; log := log w ++ [Encode (content doc)] |}).
Proof.
  unfold find_best_match_body, call_encode, bind, emit, ret.
  unfold best_step, score.
  now destruct (Qgtb _ (snd acc)).
Qed.

(** The loop computes [best_step] over the documents and embeds each of
    them once, in order. *)
Lemma find_best_match_loop (query : str) (documents : list chunk)
    (acc : option chunk * Q) (w : world) :
  for_each
    (find_best_match_body np_dot embed_model
       (encode embed_model query)) documents acc w
  = (fold_left (best_step np_dot embed_model query) documents acc,
     {| messages := messages w;
        log := log w ++ map (fun doc => Encode (content doc)) documents |}).
Proof.
  revert acc w. induction documents as [|doc l IH]; intros acc w.
  - simpl. unfold ret. now rewrite app_nil_r, world_eta.
  - cbn [for_each fold_left map]. rewrite bind_run. unfold result, after.
    rewrite find_best_match_body_run. cbn [fst snd]. rewrite IH.
    cbn [messages log]. now rewrite <- app_assoc.
Qed.

Lemma find_best_match_run (query : str) (documents : list chunk)
    (w : world) :
  find_best_match np_dot query documents embed_model w
  = (best_of np_dot embed_model query documents,
     {| messages := messages w;
        log := log w ++ encode_calls query documents |}).
Proof.
  destruct documents as [|doc l].
  - simpl. unfold ret. now rewrite app_nil_r, world_eta.
  - unfold find_best_match. rewrite !bind_run. unfold result, after.
    rewrite call_encode_run. cbn [fst snd]. rewrite find_best_match_loop.
    unfold ret. cbn [fst snd messages log encode_calls].
    now rewrite <- app_assoc.
Qed.

(** What the loop has after [documents], from any initial pair: nothing
    new when no score exceeds [highest_score], else the first chunk with the
    greatest score. *)
Lemma best_step_fold (query : str) (documents : list chunk)
    (best_doc : option chunk) (highest_score : Q) :
  ((forall d, In d documents -> (score np_dot embed_model query d <= highest_score)%Q)
   /\ fold_left (best_step np_dot embed_model query) documents (best_doc, highest_score)
      = (best_doc, highest_score))
  \/ (exists doc,
        first_argmax np_dot embed_model query documents doc
        /\ (highest_score < score np_dot embed_model query doc)%Q
        /\ fold_left (best_step np_dot embed_model query) documents (best_doc, highest_score)
           = (Some doc, score np_dot embed_model query doc)).
Proof.
  revert best_doc highest_score.
  induction documents as [|x l IH]; intros best_doc highest_score.
  - left. split; [intros d []|reflexivity].
  - simpl fold_left. unfold best_step at 2 4. simpl snd.
    destruct (Qgtb (score np_dot embed_model query x) highest_score) eqn:E.
    + apply Qgtb_lt in E. right.
      destruct (IH (Some x) (score np_dot embed_model query x))
        as [[Hle ->] | (doc & (l1 & l2 & -> & H1 & H2) & Hlt & ->)].
      * exists x. split; [|now split].
        exists [], l. split; [reflexivity|]. split; [intros d []|exact Hle].
      * exists doc. split; [|split; [lra|reflexivity]].
        exists (x :: l1), l2. split; [reflexivity|]. split; [|exact H2].
        intros d [<-|Hd]; [exact Hlt|now apply H1].
    + apply Qgtb_le in E.
      destruct (IH best_doc highest_score)
        as [[Hle ->] | (doc & (l1 & l2 & -> & H1 & H2) & Hlt & ->)].
      * left. split; [|reflexivity].
        intros d [<-|Hd]; [exact E|now apply Hle].
      * right. exists doc. split; [|now split].
        exists (x :: l1), l2. split; [reflexivity|]. split; [|exact H2].
        intros d [<-|Hd]; [lra|now apply H1].
Qed.

(** When some chunk scores above -1, the search returns the first chunk
    with the greatest score. *)
Lemma find_best_match_first_argmax (query : str) (documents : list chunk)
    (w : world) :
  (exists d, In d documents /\ (-1 # 1 < score np_dot embed_model query d)%Q) ->
  exists doc,
    result (find_best_match np_dot query documents embed_model) w
    = Some doc
    /\ first_argmax np_dot embed_model query documents doc.
Proof.
  intros (d & Hd & Hlt). unfold result. rewrite find_best_match_run.
  simpl fst. unfold best_of.
  destruct (best_step_fold query documents None (-1 # 1))
    as [[Hle _] | (doc & Harg & _ & ->)].
  - specialize (Hle d Hd). lra.
  - now exists doc.
Qed.

(** When no chunk scores above -1, the search returns [None]. *)
Lemma find_best_match_floor (query : str) (documents : list chunk)
    (w : world) :
  (forall d, In d documents -> (score np_dot embed_model query d <= -1 # 1)%Q) ->
  result (find_best_match np_dot query documents embed_model) w
  = None.
Proof.
  intros Hle. unfold result. rewrite find_best_match_run.
  simpl fst. unfold best_of.
  destruct (best_step_fold query documents None (-1 # 1))
    as [[_ ->] | (doc & (l1 & l2 & -> & _) & Hlt & _)]; [reflexivity|].
  specialize (Hle doc (in_elt doc l1 l2)). lra.
Qed.

End SearchFacts.

(* ================================================================= *)
(** ** The transcript under the operations of a turn *)

Create HintDb transcript.

Lemma keeps_ret {A} (a : A) : keeps_messages (ret a).
Proof. intros w. reflexivity. Qed.

Lemma keeps_emit (e : event) : keeps_messages (emit e).
Proof. intros w. reflexivity. Qed.

Lemma keeps_get_messages : keeps_messages get_messages.
Proof. intros w. reflexivity. Qed.

Lemma keeps_call_create (client : Groq) (msgs : list message) (model : str)
    (temperature : Q) :
  keeps_messages (call_create client msgs model temperature).
Proof. intros w. reflexivity. Qed.

Lemma keeps_bind {A B} (c : App A) (k : A -> App B) :
  keeps_messages c -> (forall a, keeps_messages (k a)) ->
  keeps_messages (bind c k).
Proof.
  intros Hc Hk w. unfold after. rewrite bind_run.
  fold (after (k (result c w)) (after c w)). now rewrite Hk, Hc.
Qed.

Lemma keeps_for_each {A S} (body : S -> A -> App S) (l : list A) (acc : S) :
  (forall acc x, keeps_messages (body acc x)) ->
  keeps_messages (for_each body l acc).
Proof.
  intros Hb. revert acc. induction l as [|x l IH]; intros acc; simpl.
  - apply keeps_ret.
  - apply keeps_bind; [apply Hb|exact IH].
Qed.

#[local] Hint Resolve keeps_ret keeps_emit keeps_get_messages
  keeps_call_create keeps_bind keeps_for_each : transcript.

Lemma keeps_appends {A} (c : App A) : keeps_messages c -> appends_messages c.
Proof. intros H w. exists []. now rewrite app_nil_r. Qed.

Lemma appends_bind {A B} (c : App A) (k : A -> App B) :
  appends_messages c -> (forall a, appends_messages (k a)) ->
  appends_messages (bind c k).
Proof.
  intros Hc Hk w. unfold after. rewrite bind_run.
  fold (after (k (result c w)) (after c w)).
  destruct (Hk (result c w) (after c w)) as [s2 ->].
  destruct (Hc w) as [s1 ->]. exists (s1 ++ s2). now rewrite app_assoc.
Qed.

Lemma appends_for_each {A S} (body : S -> A -> App S) (l : list A)
    (acc : S) :
  (forall acc x, appends_messages (body acc x)) ->
  appends_messages (for_each body l acc).
Proof.
  intros Hb. revert acc. induction l as [|x l IH]; intros acc; simpl.
  - apply keeps_appends, keeps_ret.
  - apply appends_bind; [apply Hb|exact IH].
Qed.

Lemma keeps_rewrite_query (user_input : str) (chat_history : list message)
    (client : Groq) :
  keeps_messages (rewrite_query user_input chat_history client).
Proof. destruct chat_history; simpl; auto with transcript. Qed.

Lemma keeps_process_file (uploaded_file : UploadedFile) :
  keeps_messages (process_file uploaded_file).
Proof.
  unfold process_file. destruct (extract_text uploaded_file);
    auto with transcript.
Qed.

Lemma keeps_load_documents (files : list UploadedFile) :
  keeps_messages (load_documents files).
Proof.
  destruct files; simpl; auto 10 using keeps_process_file with transcript.
Qed.

Lemma keeps_show_history : keeps_messages show_history.
Proof. unfold show_history. auto with transcript. Qed.

Lemma keeps_chat_decline : keeps_messages chat_decline.
Proof. unfold chat_decline. auto with transcript. Qed.

Lemma fold_left_snoc {A} (l init : list A) :
  fold_left (fun full x => full ++ [x]) l init = init ++ l.
Proof.
  revert init. induction l as [|x l IH]; intros init; simpl.
  - now rewrite app_nil_r.
  - now rewrite IH, <- app_assoc.
Qed.

(** The answer branch, step by step. *)
Lemma chat_answer_run (prompt : str) (doc : chunk) (client : Groq)
    (w : world) :
  chat_answer prompt doc client w
  = (tt,
     {| messages :=
          messages w
          ++ [ Msg.mk (lit "user") prompt;
               Msg.mk (lit "assistant") (answer_text client w doc prompt) ];
        log :=
          log w
          ++ [ StatusWrite (lit "Found relevant info!");
               ChatCompletionsCreate (answer_request (messages w) doc prompt)
                 llama (1 # 2)%Q;
               StChatMessage (lit "assistant")
                 (answer_text client w doc prompt);
               StatusUpdate (lit "Complete!") (lit "complete") (Some false) ]
     |}).
Proof.
  unfold chat_answer, bind, emit, get_messages, call_create, messages_append,
    answer_text, answer_request.
  cbn [messages log]. rewrite fold_left_snoc.
  cbn [app]. rewrite <- !app_assoc. reflexivity.
Qed.

Lemma chat_decline_run (w : world) :
  chat_decline w
  = (tt,
     {| messages := messages w;
        log := log w
               ++ [ StWarning no_info_warning;
                    StatusUpdate (lit "No info found") (lit "error") None ]
     |}).
Proof.
  unfold chat_decline, bind, emit. cbn [messages log].
  now rewrite <- app_assoc.
Qed.

Section TurnFacts.

Variable ndarray : Type.
Variable np_dot : ndarray -> ndarray -> Q.
Variable embed_model : SentenceTransformer ndarray.
Variable client : Groq.

Lemma keeps_find_best_match (query : str) (documents : list chunk) :
  keeps_messages (find_best_match np_dot query documents embed_model).
Proof. intros w. unfold after. now rewrite find_best_match_run. Qed.

Lemma keeps_chat_search (prompt : str) (documents : list chunk) :
  keeps_messages (chat_search np_dot prompt documents embed_model client).
Proof.
  unfold chat_search.
  auto 10 using keeps_rewrite_query, keeps_find_best_match with transcript.
Qed.

Lemma chat_turn_run (prompt : str) (documents : list chunk) (w : world) :
  chat_turn np_dot prompt documents embed_model client w
  = match result (chat_search np_dot prompt documents embed_model client) w
    with
    | Some doc =>
        chat_answer prompt doc client
          (after (chat_search np_dot prompt documents embed_model client) w)
    | None =>
        chat_decline
          (after (chat_search np_dot prompt documents embed_model client) w)
    end.
Proof. unfold chat_turn. rewrite bind_run. now destruct (result _ w). Qed.

Lemma appends_chat_turn (prompt : str) (documents : list chunk) :
  appends_messages (chat_turn np_dot prompt documents embed_model client).
Proof.
  intros w. unfold after at 1. rewrite chat_turn_run.
  destruct (result _ w).
  - rewrite chat_answer_run. cbn [snd messages].
    rewrite keeps_chat_search. eauto.
  - rewrite chat_decline_run. cbn [snd messages].
    rewrite keeps_chat_search. exists []. now rewrite app_nil_r.
Qed.

Lemma appends_script_run (files : list UploadedFile) (input : option str) :
  appends_messages (script_run np_dot files input embed_model client).
Proof.
  unfold script_run.
  apply appends_bind; [apply keeps_appends, keeps_load_documents|].
  intros documents.
  apply appends_bind; [apply keeps_appends, keeps_show_history|].
  intros _. destruct input as [[|c prompt']|].
  - apply keeps_appends, keeps_ret.
  - apply appends_chat_turn.
  - apply keeps_appends, keeps_ret.
Qed.

Lemma appends_session (runs : list run_input) :
  appends_messages (session np_dot embed_model client runs).
Proof.
  unfold session. apply appends_for_each.
  intros _ r. apply appends_script_run.
Qed.

End TurnFacts.

(* ================================================================= *)
(** ** Loading the documents *)

Lemma result_bind {A B} (c : App A) (k : A -> App B) (w : world) :
  result (bind c k) w = result (k (result c w)) (after c w).
Proof. unfold result at 1. now rewrite bind_run. Qed.

Lemma process_file_result (uploaded_file : UploadedFile) (w : world) :
  result (process_file uploaded_file) w = file_chunks uploaded_file.
Proof.
  unfold process_file, file_chunks.
  now destruct (extract_text uploaded_file).
Qed.

Lemma load_loop_result (files : list UploadedFile) (acc : list chunk)
    (w : world) :
  result
    (for_each
       (fun documents file =>
          docs <- process_file file ;; ret (documents ++ docs))
       files acc) w
  = acc ++ flat_map file_chunks files.
Proof.
  revert acc w. induction files as [|f files IH]; intros acc w.
  - simpl. now rewrite app_nil_r.
  - cbn [for_each flat_map]. rewrite result_bind, IH, result_bind.
    unfold ret at 1. unfold result at 1. cbn [fst].
    now rewrite process_file_result, app_assoc.
Qed.

Lemma load_documents_result (files : list UploadedFile) (w : world) :
  result (load_documents files) w
  = match files with
    | [] => demo_documents
    | _ :: _ => flat_map file_chunks files
    end.
Proof.
  destruct files as [|f files]; [reflexivity|].
  unfold load_documents. rewrite result_bind, result_bind, load_loop_result.
  reflexivity.
Qed.

Lemma flat_map_nil {A B} (f : A -> list B) (l : list A) :
  flat_map f l = [] <-> forall x, In x l -> f x = [].
Proof.
  induction l as [|x l IH]; simpl.
  - split; [intros _ y []|reflexivity].
  - split.
    + intros H. apply app_eq_nil in H. destruct H as [H1 H2].
      intros y [<-|Hy]; [exact H1|]. now apply IH.
    + intros H. rewrite (H x (or_introl eq_refl)).
      apply IH. intros y Hy. apply H. now right.
Qed.

(* ================================================================= *)
(** ** The properties of the specification *)

(** C2. Every chunk [process_text] returns has a content that is trimmed
    and longer than 20 characters; no paragraph whose trimmed length is 20
    or less is the content of a returned chunk. *)
Theorem process_text_contents_long (text filename : str) :
  Forall (fun c => strip (content c) = content c /\ 20 < length (content c))
    (process_text text filename)
  /\ (forall p, In p (split_nn text) -> length (strip p) <= 20 ->
        ~ In (strip p) (map content (process_text text filename))).
Proof.
  assert (H : forall c, In c (process_text text filename) ->
                strip (content c) = content c /\ 20 < length (content c)).
  { intros c Hc. apply In_process_text in Hc.
    destruct Hc as (i & p & _ & Hlen & ->). simpl.
    split; [apply strip_idem|exact Hlen]. }
  split.
  - apply Forall_forall. exact H.
  - intros p _ Hshort Hin. apply in_map_iff in Hin.
    destruct Hin as (c & Hc & Hin). apply H in Hin.
    rewrite Hc in Hin. lia.
Qed.

(** C3. The chunks of [process_text] are, in the order of the text, the
    trimmed paragraphs of the split on two newlines whose trimmed length
    exceeds 20, and there are as many chunks as such paragraphs.  The
    paragraphs joined by two newlines give the text back and none of them
    has two newlines in a row.  The empty text gives no chunk. *)
Theorem process_text_count_and_order (text filename : str) :
  map content (process_text text filename)
  = map strip (filter long_enough (split_nn text))
  /\ length (process_text text filename)
     = length (filter long_enough (split_nn text))
  /\ join_nn (split_nn text) = text
  /\ Forall (fun p => has_nn p = false) (split_nn text)
  /\ process_text [] filename = [].
Proof.
  split; [apply process_text_contents|].
  split; [|split; [apply join_split_nn|split; [apply split_nn_pieces|]]];
    [|reflexivity].
  rewrite <- (length_map content), process_text_contents.
  apply length_map.
Qed.

(** C9. A chunk is returned exactly for each paragraph that is long
    enough, and its title carries the index of the paragraph in the split
    plus one, not its rank among the chunks: when the second of three
    paragraphs is dropped the titles are Section 1 and Section 3. *)
Theorem process_text_section_numbers :
  (forall text filename c,
     In c (process_text text filename)
     <-> exists i p, nth_error (split_nn text) i = Some p
                     /\ 20 < length (strip p)
                     /\ c = {| title := filename ++ lit " - Section "
                                        ++ str_of_nat (i + 1);
                               content := strip p |})
  /\ map title (process_text three_paragraphs (lit "Demo"))
     = [lit "Demo - Section 1"; lit "Demo - Section 3"].
Proof.
  split; [|reflexivity].
  intros text filename c. apply In_process_text.
Qed.

(** C4. On an empty document list [find_best_match] returns [None] and
    leaves the world as it is: no call to [encode] is recorded.  The empty
    list is the only one for which the search records no call. *)
Theorem find_best_match_no_documents {ndarray : Type}
    (np_dot : ndarray -> ndarray -> Q) (query : str)
    (embed_model : SentenceTransformer ndarray) (w : world) :
  find_best_match np_dot query [] embed_model w = (None, w)
  /\ (forall documents,
        log (after (find_best_match np_dot query documents embed_model) w)
        = log w
        <-> documents = []).
Proof.
  split; [reflexivity|].
  intros documents. unfold after. rewrite find_best_match_run.
  cbn [snd log]. split.
  - intros H. apply (f_equal (@length event)) in H.
    rewrite length_app in H. destruct documents; [reflexivity|].
    simpl in H. lia.
  - intros ->. apply app_nil_r.
Qed.

(** C5. With an empty chat history [rewrite_query] returns the query it
    was given and leaves the world as it is: no call to the client is
    recorded.  With any other history it records one call. *)
Theorem rewrite_query_no_history (user_input : str) (client : Groq)
    (w : world) :
  rewrite_query user_input [] client w = (user_input, w)
  /\ (forall chat_history,
        log (after (rewrite_query user_input chat_history client) w) = log w
        <-> chat_history = []).
Proof.
  split; [reflexivity|].
  intros chat_history. split.
  - destruct chat_history as [|m l]; [reflexivity|].
    unfold rewrite_query, after, call_create. cbn [snd log].
    intros H. apply (f_equal (@length event)) in H.
    rewrite length_app in H. simpl in H. lia.
  - intros ->. reflexivity.
Qed.

(** C1, at an input where it fails. The document list has one chunk, the
    embeddings are unit vectors and the score of the chunk is -1: the
    search embeds the query and the chunk and returns [None], not the
    chunk. *)
Theorem find_best_match_misses_opposed :
  opposed_documents <> []
  /\ (score dot_exact opposed_model (lit "q") (mkChunk (lit "t") (lit "c"))
      == -1 # 1)%Q
  /\ find_best_match dot_exact (lit "q") opposed_documents opposed_model
       empty_world
     = (None,
        {| messages := []; log := [Encode (lit "q"); Encode (lit "c")] |}).
Proof.
  split; [discriminate|]. split; reflexivity.
Qed.

Lemma contains_here (s after_ : str) : contains (s ++ after_) s.
Proof. now exists [], after_. Qed.

Lemma contains_app_r (before s sub : str) :
  contains s sub -> contains (before ++ s) sub.
Proof.
  intros (b & a & ->). exists (before ++ b), a. now rewrite app_assoc.
Qed.

Lemma contains_app_l (s after_ sub : str) :
  contains s sub -> contains (s ++ after_) sub.
Proof.
  intros (b & a & ->). exists b, (a ++ after_). now rewrite <- !app_assoc.
Qed.

Lemma contains_refl (s : str) : contains s s.
Proof. exists [], []. now rewrite app_nil_r. Qed.

Lemma contains_context_title (doc : chunk) :
  contains (context_text doc) (title doc).
Proof.
  unfold context_text. apply contains_app_r, contains_here.
Qed.

Lemma contains_context_content (doc : chunk) :
  contains (context_text doc) (content doc).
Proof.
  unfold context_text. do 4 apply contains_app_r. apply contains_refl.
Qed.

Lemma contains_system_msg_context (doc : chunk) :
  contains (system_msg doc) (context_text doc).
Proof.
  unfold system_msg. do 8 apply contains_app_r. apply contains_here.
Qed.

Lemma contains_trans (s t u : str) :
  contains s t -> contains t u -> contains s u.
Proof.
  intros (b & a & ->) H. now apply contains_app_r, contains_app_l.
Qed.

Lemma contains_system_msg_title (doc : chunk) :
  contains (system_msg doc) (title doc).
Proof.
  eapply contains_trans;
    [apply contains_system_msg_context|apply contains_context_title].
Qed.

Lemma contains_system_msg_content (doc : chunk) :
  contains (system_msg doc) (content doc).
Proof.
  eapply contains_trans;
    [apply contains_system_msg_context|apply contains_context_content].
Qed.

Section TurnProperties.

Variable ndarray : Type.
Variable np_dot : ndarray -> ndarray -> Q.
Variable embed_model : SentenceTransformer ndarray.
Variable client : Groq.

(** C6. When the search of a turn returns no chunk, the turn leaves the
    transcript as it was and ends with the same two signals whatever the
    question: the warning that nothing was found and the status
    "No info found". *)
Theorem chat_turn_declined (prompt : str) (documents : list chunk)
    (w : world) :
  result (chat_search np_dot prompt documents embed_model client) w = None ->
  messages (after (chat_turn np_dot prompt documents embed_model client) w)
  = messages w
  /\ log (after (chat_turn np_dot prompt documents embed_model client) w)
     = log (after (chat_search np_dot prompt documents embed_model client) w)
       ++ [ StWarning
              (lit "I couldn't find information about that in the documents.");
            StatusUpdate (lit "No info found") (lit "error") None ].
Proof.
  intros H. unfold after at 1 2. rewrite chat_turn_run, H, chat_decline_run.
  cbn [snd messages log]. split; [apply keeps_chat_search|reflexivity].
Qed.

(** C7. When the search of a turn returns a chunk, the transcript after the
    turn is the transcript before it followed by two turns: the question as
    the user typed it, then the answer of the client.  Over any number of
    runs of the script the transcript only grows at its end. *)
Theorem chat_turn_appends_exchange (prompt : str) (documents : list chunk)
    (w : world) (doc : chunk) :
  result (chat_search np_dot prompt documents embed_model client) w
  = Some doc ->
  messages (after (chat_turn np_dot prompt documents embed_model client) w)
  = messages w
    ++ [ Msg.mk (lit "user") prompt;
         Msg.mk (lit "assistant")
           (answer_text client
              (after (chat_search np_dot prompt documents embed_model client)
                 w)
              doc prompt) ]
  /\ (forall runs w0,
        exists suffix,
          messages (after (session np_dot embed_model client runs) w0)
          = messages w0 ++ suffix).
Proof.
  intros H. split.
  - unfold after at 1. rewrite chat_turn_run, H, chat_answer_run.
    cbn [snd messages]. now rewrite keeps_chat_search.
  - intros runs w0. apply appends_session.
Qed.

(** C8. When the search of a turn returns a chunk, the turn makes one more
    call to the client, with these messages: a system message that contains
    the title and the content of the chunk, then the transcript as it was
    before the turn, then the question of the user as the last message. *)
Theorem chat_turn_answer_request (prompt : str) (documents : list chunk)
    (w : world) (doc : chunk) :
  result (chat_search np_dot prompt documents embed_model client) w
  = Some doc ->
  let w1 := after (chat_search np_dot prompt documents embed_model client) w in
  log (after (chat_turn np_dot prompt documents embed_model client) w)
  = log w1
    ++ [ StatusWrite (lit "Found relevant info!");
         ChatCompletionsCreate
           (Msg.mk (lit "system") (system_msg doc) :: messages w
            ++ [Msg.mk (lit "user") prompt])
           (lit "llama-3.3-70b-versatile") (1 # 2)%Q;
         StChatMessage (lit "assistant") (answer_text client w1 doc prompt);
         StatusUpdate (lit "Complete!") (lit "complete") (Some false) ]
  /\ contains (system_msg doc) (title doc)
  /\ contains (system_msg doc) (content doc).
Proof.
  intros H w1. subst w1. split.
  - unfold after at 1. rewrite chat_turn_run, H, chat_answer_run.
    cbn [snd log]. unfold answer_request.
    now rewrite keeps_chat_search.
  - split; [apply contains_system_msg_title|apply contains_system_msg_content].
Qed.

End TurnProperties.

(** C10. With no uploaded file the document list is the one built-in
    chunk, titled "Demo: Travel", and a question is searched in it.  The
    document list of a run is empty exactly when files were uploaded and
    none of them gave a chunk. *)
Theorem load_documents_demo :
  (forall w, load_documents [] w = (demo_documents, w))
  /\ (exists c, demo_documents = [c] /\ title c = lit "Demo: Travel")
  /\ (forall files w,
        result (load_documents files) w = []
        <-> files <> []
            /\ forall f, In f files ->
                 forall w', result (process_file f) w' = [])
  /\ (forall ndarray (np_dot : ndarray -> ndarray -> Q) embed_model client
        c prompt w,
        script_run np_dot [] (Some (c :: prompt)) embed_model client w
        = (show_history ;;
           chat_turn np_dot (c :: prompt) demo_documents embed_model client)
            w).
Proof.
  split; [reflexivity|]. split; [eexists; split; reflexivity|].
  split; [|reflexivity].
  intros files w. rewrite load_documents_result.
  destruct files as [|f files].
  - split; [discriminate|]. intros [H _]. congruence.
  - rewrite flat_map_nil. split.
    + intros H. split; [discriminate|].
      intros x Hx w'. rewrite process_file_result. now apply H.
    + intros [_ H] x Hx. rewrite <- (process_file_result x empty_world).
      now apply H.
Qed.

(* ================================================================= *)
(** ** The properties at sample inputs *)

(** C2 at a text of three paragraphs whose second one is short. *)
Lemma process_text_contents_long_witness :
  In (lit "See below.") (split_nn three_paragraphs)
  /\ ~ In (strip (lit "See below."))
         (map content (process_text three_paragraphs (lit "Demo"))).
Proof.
  assert (H : In (lit "See below.") (split_nn three_paragraphs)).
  { right. left. reflexivity. }
  split; [exact H|].
  apply (proj2 (process_text_contents_long three_paragraphs (lit "Demo"))
           (lit "See below.") H).
  vm_compute. lia.
Defined.

(** C6 at the scenario of the specification: no document, an empty
    transcript. *)
Lemma chat_turn_declined_witness :
  result (chat_search dot_exact what_about_hotels [] stub_model stub_client)
    empty_world = None
  /\ messages
       (after (chat_turn dot_exact what_about_hotels [] stub_model stub_client)
          empty_world) = [].
Proof.
  split; [reflexivity|].
  apply (chat_turn_declined (list Q) dot_exact stub_model stub_client
           what_about_hotels [] empty_world).
  reflexivity.
Defined.

(** C7 in a session that has had one exchange. *)
Lemma chat_turn_appends_exchange_witness :
  result
    (chat_search dot_exact what_about_hotels demo_chunks stub_model
       stub_client) world_one_exchange = Some hotels_chunk
  /\ messages
       (after
          (chat_turn dot_exact what_about_hotels demo_chunks stub_model
             stub_client) world_one_exchange)
     = one_exchange
       ++ [ Msg.mk (lit "user") what_about_hotels;
            Msg.mk (lit "assistant") (lit "Up to $200 per night.") ].
Proof.
  split; [reflexivity|].
  apply (chat_turn_appends_exchange (list Q) dot_exact stub_model stub_client
           what_about_hotels demo_chunks world_one_exchange hotels_chunk).
  reflexivity.
Defined.

(** C8 at the scenario of the specification: the two demo chunks, an empty
    transcript and the question about hotels. *)
Lemma chat_turn_answer_request_witness :
  result
    (chat_search dot_exact what_about_hotels demo_chunks stub_model
       stub_client) empty_world = Some hotels_chunk
  /\ contains (system_msg hotels_chunk) hotels.
Proof.
  split; [reflexivity|].
  apply (chat_turn_answer_request (list Q) dot_exact stub_model stub_client
           what_about_hotels demo_chunks empty_world hotels_chunk).
  reflexivity.
Defined.

(** The scenario of the specification for the chunker. *)
Example process_text_two_paragraphs :
  map title (process_text two_paragraphs (lit "Demo"))
  = [lit "Demo - Section 1"; lit "Demo - Section 2"].
Proof. reflexivity. Qed.

(** With hand-chosen vectors the search selects the chunk about hotels,
    and of two chunks with the same score the first one. *)
Example find_best_match_hotels :
  result (find_best_match dot_exact what_about_hotels demo_chunks stub_model)
    empty_world = Some hotels_chunk
  /\ result
       (find_best_match dot_exact what_about_hotels
          [mkChunk (lit "a") hotels; mkChunk (lit "b") hotels] stub_model)
       empty_world = Some (mkChunk (lit "a") hotels).
Proof. split; reflexivity. Qed.

(** A file whose only paragraph is too short leaves the document list
    empty, and the turn declines. *)
Example short_file_declines :
  result (load_documents [short_file]) empty_world = []
  /\ result
       (chat_search dot_exact what_about_hotels [] stub_model stub_client)
       empty_world = None.
Proof. split; reflexivity. Qed.

(* ================================================================= *)
(** ** Further properties of the chunker *)

Lemma lit_inj (s1 s2 : String.string) : lit s1 = lit s2 -> s1 = s2.
Proof.
  unfold lit. intros H.
  apply (f_equal (map Ascii.ascii_of_N)) in H.
  rewrite !map_map in H.
  rewrite !(map_ext _ (fun a => a) Ascii.ascii_N_embedding), !map_id in H.
  apply (f_equal String.string_of_list_ascii) in H.
  now rewrite !String.string_of_list_ascii_of_string in H.
Qed.

Lemma str_of_nat_inj (n m : nat) : str_of_nat n = str_of_nat m -> n = m.
Proof.
  unfold str_of_nat. intros H. apply lit_inj in H.
  apply (f_equal DecimalString.NilEmpty.uint_of_string) in H.
  rewrite !DecimalString.NilEmpty.usu in H. injection H as H.
  apply (f_equal Nat.of_uint) in H.
  now rewrite !DecimalNat.Unsigned.of_to in H.
Qed.

Lemma section_title_inj (filename : str) (i j : nat) :
  section_title filename i = section_title filename j -> i = j.
Proof.
  unfold section_title. intros H.
  apply app_inv_head, app_inv_head, str_of_nat_inj in H. lia.
Qed.

Lemma NoDup_map_filter {A B} (h : A -> B) (f : A -> bool) (l : list A) :
  NoDup (map h l) -> NoDup (map h (filter f l)).
Proof.
  induction l as [|x l IH]; simpl; intros H; [constructor|].
  inversion H as [|? ? Hx Hl]; subst.
  destruct (f x); [|now apply IH].
  simpl. constructor; [|now apply IH].
  intros Hin. apply Hx. apply in_map_iff in Hin.
  destruct Hin as (y & Hy & Hin). apply filter_In in Hin.
  apply in_map_iff. exists y. tauto.
Qed.

Lemma map_fst_enumerate {A} (l : list A) :
  map fst (enumerate l) = seq 0 (length l).
Proof.
  unfold enumerate. generalize 0.
  induction l as [|x l IH]; intros a; simpl; [reflexivity|].
  now rewrite IH.
Qed.

Lemma NoDup_map_inj {A B} (f : A -> B) (l : list A) :
  (forall x y, f x = f y -> x = y) -> NoDup l -> NoDup (map f l).
Proof.
  intros Hf. induction 1 as [|x l Hx Hl IH]; simpl; constructor; [|exact IH].
  intros Hin. apply in_map_iff in Hin. destruct Hin as (y & Hy & Hin).
  apply Hf in Hy. now subst y.
Qed.

(** X1. The titles of the chunks of one text are pairwise distinct. *)
Theorem process_text_titles_distinct (text filename : str) :
  NoDup (map title (process_text text filename)).
Proof.
  rewrite process_text_filter, map_map. cbn [chunk_of title].
  rewrite <- (map_map fst (section_title filename)).
  apply NoDup_map_inj.
  - intros i j. apply section_title_inj.
  - apply NoDup_map_filter. rewrite map_fst_enumerate. apply seq_NoDup.
Qed.

Lemma lstrip_suffix (s : str) : exists ws, s = ws ++ lstrip s.
Proof.
  induction s as [|c s [ws IH]]; simpl.
  - now exists [].
  - destruct (isspace c).
    + exists (c :: ws). simpl. now rewrite <- IH.
    + now exists [].
Qed.

Lemma contains_strip (s : str) : contains s (strip s).
Proof.
  unfold strip, rstrip.
  destruct (lstrip_suffix s) as [ws1 H1].
  destruct (lstrip_suffix (rev (lstrip s))) as [ws2 H2].
  exists ws1, (rev ws2).
  rewrite <- rev_app_distr, <- H2, rev_involutive. exact H1.
Qed.

Lemma contains_join_nn (pieces : list str) (p : str) :
  In p pieces -> contains (join_nn pieces) p.
Proof.
  induction pieces as [|q [|r l] IH]; intros Hin.
  - destruct Hin.
  - destruct Hin as [<-|[]]. apply contains_refl.
  - change (join_nn (q :: r :: l)) with (q ++ nl :: nl :: join_nn (r :: l)).
    destruct Hin as [<-|Hin]; [apply contains_here|].
    apply contains_app_r. apply (contains_app_r [nl; nl]). now apply IH.
Qed.

(** X2. The content of every chunk occurs in the text as it is: the
    chunker copies, it never rewrites. *)
Theorem process_text_content_verbatim (text filename : str) :
  Forall (fun c => contains text (content c)) (process_text text filename).
Proof.
  apply Forall_forall. intros c Hc. apply In_process_text in Hc.
  destruct Hc as (i & p & Hp & _ & ->). cbn [content].
  apply nth_error_In in Hp.
  apply contains_trans with (t := p); [|apply contains_strip].
  rewrite <- (join_split_nn text) at 1. now apply contains_join_nn.
Qed.

Lemma join_nn_length (pieces : list str) :
  pieces <> [] ->
  length (join_nn pieces) + 2
  = list_sum (map (fun p => length p + 2) pieces).
Proof.
  induction pieces as [|q [|r l] IH]; intros Hne.
  - congruence.
  - simpl. lia.
  - change (join_nn (q :: r :: l)) with (q ++ nl :: nl :: join_nn (r :: l)).
    rewrite length_app. specialize (IH ltac:(discriminate)).
    unfold list_sum in *. cbn [length map fold_right] in *. lia.
Qed.

Lemma long_pieces_weight (pieces : list str) :
  23 * length (filter long_enough pieces)
  <= list_sum (map (fun p => length p + 2) pieces).
Proof.
  unfold list_sum.
  induction pieces as [|q l IH]; cbn [filter map fold_right length]; [lia|].
  unfold long_enough at 1. destruct (20 <? length (strip q)) eqn:E.
  - apply Nat.ltb_lt in E. pose proof (strip_length q).
    cbn [length]. lia.
  - lia.
Qed.

(** X3. A chunk needs 21 characters of its own and two newlines between
    it and the next: 23 times the number of chunks is at most the length
    of the text plus 2, so a text of 20 characters or less gives no
    chunk. *)
Theorem process_text_size_bound (text filename : str) :
  23 * length (process_text text filename) <= length text + 2.
Proof.
  rewrite <- (length_map content), process_text_contents, length_map.
  rewrite <- (join_split_nn text) at 2.
  rewrite join_nn_length by apply split_nn_nonempty.
  apply long_pieces_weight.
Qed.

Lemma tidy_cons2 (c d : codepoint) (p : str) :
  tidy (c :: d :: p) = true ->
  is_nl c && is_nl d = false /\ tidy (d :: p) = true.
Proof.
  unfold tidy. cbn [last].
  change (has_nn (c :: d :: p)) with ((is_nl c && is_nl d) || has_nn (d :: p)).
  destruct (is_nl c && is_nl d); simpl; [discriminate|tauto].
Qed.

Lemma split_nn_tidy_app (p rest : str) :
  tidy p = true -> split_nn (p ++ nl :: nl :: rest) = p :: split_nn rest.
Proof.
  induction p as [|c p IH]; intros Ht.
  - reflexivity.
  - destruct p as [|d p].
    + unfold tidy in Ht. cbn in Ht. cbn [app]. rewrite split_nn_cons2.
      apply negb_true_iff in Ht. rewrite Ht. cbn [andb].
      change (split_nn (nl :: nl :: rest)) with ([] :: split_nn rest).
      reflexivity.
    + apply tidy_cons2 in Ht. destruct Ht as [E Ht].
      cbn [app]. rewrite split_nn_cons2, E.
      change (d :: p ++ nl :: nl :: rest) with ((d :: p) ++ nl :: nl :: rest).
      now rewrite (IH Ht).
Qed.

Lemma split_nn_tidy (p : str) : tidy p = true -> split_nn p = [p].
Proof.
  induction p as [|c p IH]; intros Ht; [reflexivity|].
  destruct p as [|d p]; [reflexivity|].
  apply tidy_cons2 in Ht. destruct Ht as [E Ht].
  rewrite split_nn_cons2, E. now rewrite (IH Ht).
Qed.

(** Splitting undoes joining when the pieces are tidy. *)
Lemma split_join_nn (pieces : list str) :
  pieces <> [] -> Forall (fun p => tidy p = true) pieces ->
  split_nn (join_nn pieces) = pieces.
Proof.
  induction pieces as [|q [|r l] IH]; intros Hne Ht.
  - congruence.
  - inversion Ht; subst. now apply split_nn_tidy.
  - change (join_nn (q :: r :: l)) with (q ++ nl :: nl :: join_nn (r :: l)).
    inversion Ht as [|? ? Hq Hl]; subst.
    rewrite split_nn_tidy_app by exact Hq.
    now rewrite IH by (discriminate || exact Hl).
Qed.

(** X4. A text made of tidy paragraphs joined by blank lines gives one
    chunk for each paragraph that is long enough, numbered by the position
    of the paragraph. *)
Theorem process_text_of_paragraphs (paragraphs : list str) (filename : str) :
  paragraphs <> [] ->
  Forall (fun p => tidy p = true) paragraphs ->
  process_text (join_nn paragraphs) filename
  = map (chunk_of filename)
        (filter (fun ip => long_enough (snd ip)) (enumerate paragraphs)).
Proof.
  intros Hne Ht. rewrite process_text_filter.
  now rewrite split_join_nn.
Qed.

Lemma process_text_of_paragraphs_witness :
  process_text (join_nn [meals; lit "See below."; hotels]) (lit "Demo")
  = [ {| title := lit "Demo - Section 1"; content := meals |};
      {| title := lit "Demo - Section 3"; content := hotels |} ].
Proof.
  rewrite (process_text_of_paragraphs [meals; lit "See below."; hotels]
             (lit "Demo")).
  - reflexivity.
  - discriminate.
  - repeat constructor.
Defined.

(* ================================================================= *)
(** ** Further properties of loading *)

Lemma pdf_text_join (pages : list str) (acc : str) :
  fold_left (fun text page => text ++ page ++ [nl; nl]) pages acc
  = acc ++ join_nn (pages ++ [[]]).
Proof.
  revert acc. induction pages as [|p ps IH]; intros acc.
  - simpl. now rewrite app_nil_r.
  - cbn [fold_left]. rewrite IH, <- !app_assoc. f_equal.
    destruct ps; reflexivity.
Qed.

Lemma enumerate_snoc {A} (l : list A) (x : A) :
  enumerate (l ++ [x]) = enumerate l ++ [(length l, x)].
Proof.
  unfold enumerate.
  assert (H : forall a, combine (seq a (length (l ++ [x]))) (l ++ [x])
                        = combine (seq a (length l)) l ++ [(a + length l, x)]).
  { induction l as [|y l IH]; intros a; simpl.
    - now rewrite Nat.add_0_r.
    - rewrite IH. now rewrite Nat.add_succ_r. }
  apply H.
Qed.

Lemma tidy_nil : tidy [] = true.
Proof. reflexivity. Qed.

(** X5. A PDF whose pages are tidy gives one chunk for each page that is
    long enough, numbered by the page, and reports nothing. *)
Theorem process_file_pdf_pages (uploaded_file : UploadedFile)
    (pages : list str) (w : world) :
  endswith (name uploaded_file) (lit ".pdf") = true ->
  pdf_pages uploaded_file = Returns pages ->
  Forall (fun p => tidy p = true) pages ->
  process_file uploaded_file w
  = (map (chunk_of (name uploaded_file))
       (filter (fun ip => long_enough (snd ip)) (enumerate pages)),
     w).
Proof.
  intros Hpdf Hpages Ht. unfold process_file, extract_text.
  rewrite Hpdf, Hpages, pdf_text_join. cbn [app]. unfold ret. f_equal.
  rewrite process_text_filter, split_join_nn.
  - rewrite enumerate_snoc, filter_app. cbn [filter snd].
    change (long_enough []) with false. now rewrite app_nil_r.
  - now destruct pages.
  - apply Forall_app. split; [exact Ht|]. constructor; [apply tidy_nil|].
    constructor.
Qed.

Lemma process_file_pdf_pages_witness :
  process_file two_page_pdf empty_world
  = ([ {| title := lit "policy.pdf - Section 1"; content := meals |};
       {| title := lit "policy.pdf - Section 2"; content := hotels |} ],
     empty_world).
Proof.
  rewrite (process_file_pdf_pages two_page_pdf [meals; hotels] empty_world).
  - reflexivity.
  - reflexivity.
  - reflexivity.
  - repeat constructor.
Defined.

Lemma process_file_run (uploaded_file : UploadedFile) (w : world) :
  process_file uploaded_file w
  = (file_chunks uploaded_file,
     {| messages := messages w;
        log := log w ++ file_errors uploaded_file |}).
Proof.
  unfold process_file, file_chunks, file_errors.
  destruct (extract_text uploaded_file); [|reflexivity].
  unfold ret. now rewrite app_nil_r, world_eta.
Qed.

Lemma load_loop_run (files : list UploadedFile) (acc : list chunk)
    (w : world) :
  for_each
    (fun documents file =>
       docs <- process_file file ;; ret (documents ++ docs))
    files acc w
  = (acc ++ flat_map file_chunks files,
     {| messages := messages w;
        log := log w ++ flat_map file_errors files |}).
Proof.
  assert (Hbody : forall acc f w,
            (docs <- process_file f ;; ret (acc ++ docs)) w
            = (acc ++ file_chunks f,
               {| messages := messages w; log := log w ++ file_errors f |})).
  { intros acc' f w'. rewrite bind_run. unfold result, after.
    now rewrite process_file_run. }
  revert acc w. induction files as [|f files IH]; intros acc w.
  - simpl. unfold ret. now rewrite !app_nil_r, world_eta.
  - cbn [for_each flat_map]. rewrite bind_run. unfold result, after.
    cbv beta. rewrite Hbody. cbn [fst snd]. rewrite IH. cbn [messages log].
    now rewrite !app_assoc.
Qed.

Lemma load_documents_eq (files : list UploadedFile) (w : world) :
  load_documents files w
  = (match files with
     | [] => demo_documents
     | _ :: _ => flat_map file_chunks files
     end,
     {| messages := messages w; log := log w ++ load_log files |}).
Proof.
  destruct files as [|f files].
  - simpl. unfold ret. now rewrite app_nil_r, world_eta.
  - unfold load_documents. rewrite bind_run. unfold result, after.
    rewrite emit_run. cbn [fst snd]. rewrite bind_run. unfold result, after.
    rewrite load_loop_run. cbn [fst snd app]. rewrite bind_run.
    unfold result, after. rewrite emit_run. cbn [fst snd messages log].
    unfold ret, load_log. now rewrite <- !app_assoc.
Qed.

(** X6. The documents of a run are the chunks of the uploaded files in
    the order of the upload.  A file that cannot be read gives no chunk and
    one error report and does not stop the files after it; the final
    message counts the chunks of all files.  The transcript is not
    touched. *)
Theorem load_documents_run (files : list UploadedFile) (w : world) :
  load_documents files w
  = (match files with
     | [] => demo_documents
     | _ :: _ => flat_map file_chunks files
     end,
     {| messages := messages w; log := log w ++ load_log files |}).
Proof. apply load_documents_eq. Qed.

(** X7. Whatever is uploaded, every chunk of the document list of a run
    has a trimmed content longer than 20 characters. *)
Theorem load_documents_contents_long (files : list UploadedFile)
    (w : world) :
  Forall (fun c => strip (content c) = content c /\ 20 < length (content c))
    (result (load_documents files) w).
Proof.
  unfold result. rewrite load_documents_eq. cbn [fst].
  destruct files as [|f files].
  - repeat constructor.
  - apply Forall_forall. intros c Hc. apply in_flat_map in Hc.
    destruct Hc as (g & _ & Hc). unfold file_chunks in Hc.
    destruct (extract_text g); [|destruct Hc].
    apply In_process_text in Hc. destruct Hc as (i & p & _ & Hlen & ->).
    cbn [content]. split; [apply strip_idem|exact Hlen].
Qed.

(* ================================================================= *)
(** ** Further properties of the search *)

Section SearchProperties.

Variable ndarray : Type.
Variable np_dot : ndarray -> ndarray -> Q.
Variable embed_model : SentenceTransformer ndarray.

(** X8. The search returns [None] when no chunk scores above -1, and
    otherwise the first chunk of the greatest score, which is above -1. *)
Theorem find_best_match_outcome (query : str) (documents : list chunk)
    (w : world) :
  match result (find_best_match np_dot query documents embed_model) w with
  | None =>
      forall d, In d documents ->
        (score np_dot embed_model query d <= -1 # 1)%Q
  | Some doc =>
      first_argmax np_dot embed_model query documents doc
      /\ (-1 # 1 < score np_dot embed_model query doc)%Q
  end.
Proof.
  unfold result. rewrite find_best_match_run. cbn [fst]. unfold best_of.
  destruct (best_step_fold ndarray np_dot embed_model query documents None
              (-1 # 1)) as [[Hle ->] | (doc & Harg & Hlt & ->)]; cbn [fst].
  - exact Hle.
  - now split.
Qed.

(** X9. A search embeds the query once and then the content of every
    document once, in the order of the list: one call more than there are
    documents, and none for the empty list.  It leaves the transcript as it
    is. *)
Theorem find_best_match_calls (query : str) (documents : list chunk)
    (w : world) :
  after (find_best_match np_dot query documents embed_model) w
  = {| messages := messages w;
       log := log w
              ++ match documents with
                 | [] => []
                 | _ :: _ =>
                     Encode query
                     :: map (fun doc => Encode (content doc)) documents
                 end |}
  /\ count_encode
       (log (after (find_best_match np_dot query documents embed_model) w))
     = count_encode (log w)
       + match documents with [] => 0 | _ :: _ => 1 + length documents end.
Proof.
  unfold after. rewrite find_best_match_run. cbn [snd log].
  split; [reflexivity|].
  unfold count_encode. rewrite filter_app, length_app. f_equal.
  assert (H : forall l : list chunk,
            length (filter is_encode
                      (map (fun doc => Encode (content doc)) l))
            = length l).
  { induction l as [|x l IH]; simpl; [reflexivity|now rewrite IH]. }
  destruct documents as [|d l]; [reflexivity|].
  unfold encode_calls. cbn [filter is_encode]. cbn [length].
  now rewrite H.
Qed.

End SearchProperties.

(* ================================================================= *)
(** ** Further properties of the rewriting and of a turn *)

Lemma after_bind {A B} (c : App A) (k : A -> App B) (w : world) :
  after (bind c k) w = after (k (result c w)) (after c w).
Proof. unfold after at 1. now rewrite bind_run. Qed.

Lemma last_two_snoc2 {A} (older : list A) (m1 m2 : A) :
  last_two (older ++ [m1; m2]) = [m1; m2].
Proof.
  unfold last_two. rewrite length_app. cbn [length].
  replace (length older + 2 - 2) with (length older) by lia.
  rewrite skipn_app, skipn_all, Nat.sub_diag. reflexivity.
Qed.

Lemma rewrite_query_run (user_input : str) (chat_history : list message)
    (client : Groq) (w : world) :
  rewrite_query user_input chat_history client w
  = (match chat_history with
     | [] => user_input
     | _ :: _ =>
         create client (log w)
           (rewrite_request user_input (last_two chat_history)) llama
           (3 # 10)%Q
     end,
     {| messages := messages w;
        log := log w
               ++ match chat_history with
                  | [] => []
                  | _ :: _ =>
                      [ChatCompletionsCreate
                         (rewrite_request user_input (last_two chat_history))
                         llama (3 # 10)%Q]
                  end |}).
Proof.
  destruct chat_history as [|m l]; [|reflexivity].
  simpl. unfold ret. now rewrite app_nil_r, world_eta.
Qed.

(** X10. With a history of two turns or more, the rewriting request holds
    the fixed instruction and one user message made of the last two turns,
    one per line as [role: content], and of the question; the turns before
    them are not sent.  The answer of the client is returned as it is. *)
Theorem rewrite_query_last_two (user_input : str) (older : list message)
    (m1 m2 : message) (client : Groq) (w : world) :
  let request :=
    [ Msg.mk (lit "system") rewrite_system_prompt;
      Msg.mk (lit "user")
        (lit "History:" ++ [nl]
         ++ (Msg.role m1 ++ lit ": " ++ Msg.content m1 ++ [nl])
         ++ (Msg.role m2 ++ lit ": " ++ Msg.content m2 ++ [nl])
         ++ [nl; nl] ++ lit "Question: " ++ user_input) ] in
  rewrite_query user_input (older ++ [m1; m2]) client w
  = (create client (log w) request (lit "llama-3.3-70b-versatile") (3 # 10)%Q,
     {| messages := messages w;
        log := log w
               ++ [ChatCompletionsCreate request
                     (lit "llama-3.3-70b-versatile") (3 # 10)%Q] |}).
Proof.
  intros request. rewrite rewrite_query_run.
  destruct (older ++ [m1; m2]) as [|x l] eqn:E.
  - apply app_eq_nil in E. destruct E. discriminate.
  - rewrite <- E, last_two_snoc2.
    assert (Hreq : rewrite_request user_input [m1; m2] = request).
    { unfold rewrite_request, request. cbn [fold_left].
      unfold history_line. cbn [app]. now rewrite <- !app_assoc. }
    now rewrite Hreq.
Qed.

Lemma count_create_app (a b : list event) :
  count_create (a ++ b) = count_create a + count_create b.
Proof. unfold count_create. now rewrite filter_app, length_app. Qed.

Lemma count_encode_app (a b : list event) :
  count_encode (a ++ b) = count_encode a + count_encode b.
Proof. unfold count_encode. now rewrite filter_app, length_app. Qed.

Lemma count_encode_calls (query : str) (documents : list chunk) :
  count_create (encode_calls query documents) = 0
  /\ count_encode (encode_calls query documents)
     = match documents with [] => 0 | _ :: _ => 1 + length documents end.
Proof.
  assert (H : forall l : list chunk,
            filter is_create (map (fun doc => Encode (content doc)) l) = []
            /\ length (filter is_encode
                         (map (fun doc => Encode (content doc)) l))
               = length l).
  { induction l as [|x l [IH1 IH2]]; simpl; [now split|].
    now rewrite IH1, IH2. }
  destruct documents as [|d l]; [now split|].
  unfold count_create, count_encode, encode_calls.
  cbn [filter is_create is_encode]. destruct (H (d :: l)) as [H1 H2].
  rewrite H1. cbn [length]. now rewrite H2.
Qed.

Section TurnFurther.

Variable ndarray : Type.
Variable np_dot : ndarray -> ndarray -> Q.
Variable embed_model : SentenceTransformer ndarray.
Variable client : Groq.

(** The rewriting and the search of a turn, step by step. *)
Lemma chat_search_run (prompt : str) (documents : list chunk) (w : world) :
  chat_search np_dot prompt documents embed_model client w
  = (best_of np_dot embed_model (search_query_of prompt client w) documents,
     {| messages := messages w;
        log :=
          log (before_rewrite prompt w)
          ++ match messages w with
             | [] => []
             | _ :: _ =>
                 [ChatCompletionsCreate
                    (rewrite_request prompt (last_two (messages w)))
                    llama (3 # 10)%Q]
             end
          ++ [StatusWrite
                (lit "Searching for: *'" ++ search_query_of prompt client w
                 ++ lit "'*")]
          ++ encode_calls (search_query_of prompt client w) documents |}).
Proof.
  unfold chat_search, bind, emit, get_messages. cbn [messages log].
  rewrite <- !app_assoc. cbn [app].
  change {| messages := messages w;
            log := log w
                   ++ [ StChatMessage (lit "user") prompt;
                        StStatus (lit "Thinking...");
                        StatusWrite (lit "Understanding context...") ] |}
    with (before_rewrite prompt w).
  rewrite rewrite_query_run. cbn [messages log].
  rewrite find_best_match_run. cbn [messages log].
  unfold search_query_of, result. rewrite rewrite_query_run. cbn [fst].
  rewrite <- !app_assoc. reflexivity.
Qed.

(** X11. A turn searches with the question as typed when the transcript is
    empty, and otherwise with the answer of the client to the rewriting
    request made of the last two turns; the chunk of the turn is what
    [find_best_match] returns for that query. *)
Theorem chat_search_query (prompt : str) (documents : list chunk)
    (w : world) :
  let search_query :=
    match messages w with
    | [] => prompt
    | _ :: _ =>
        create client
          (log w
           ++ [ StChatMessage (lit "user") prompt;
                StStatus (lit "Thinking...");
                StatusWrite (lit "Understanding context...") ])
          (rewrite_request prompt (last_two (messages w)))
          (lit "llama-3.3-70b-versatile") (3 # 10)%Q
    end in
  result (chat_search np_dot prompt documents embed_model client) w
  = result (find_best_match np_dot search_query documents embed_model) w.
Proof.
  intros search_query. unfold result.
  rewrite chat_search_run, find_best_match_run. cbn [fst]. f_equal.
  unfold search_query_of, result. rewrite rewrite_query_run. cbn [fst].
  subst search_query. unfold before_rewrite. cbn [messages log].
  now destruct (messages w).
Qed.

(** X12. A turn calls the client once for the rewriting unless the
    transcript is empty, and once more for the answer when a chunk was
    found; it embeds the query and every document once unless there is no
    document. *)
Theorem chat_turn_calls (prompt : str) (documents : list chunk) (w : world) :
  count_create
    (log (after (chat_turn np_dot prompt documents embed_model client) w))
  = count_create (log w)
    + match messages w with [] => 0 | _ :: _ => 1 end
    + match result (chat_search np_dot prompt documents embed_model client) w
      with
      | Some _ => 1
      | None => 0
      end
  /\ count_encode
       (log (after (chat_turn np_dot prompt documents embed_model client) w))
     = count_encode (log w)
       + match documents with [] => 0 | _ :: _ => 1 + length documents end.
Proof.
  unfold after at 1 2. rewrite chat_turn_run.
  unfold result, after. rewrite chat_search_run. cbn [fst snd].
  destruct (count_encode_calls (search_query_of prompt client w) documents)
    as [Hc He].
  unfold before_rewrite. cbn [messages log].
  destruct (best_of np_dot embed_model _ documents).
  - rewrite chat_answer_run. cbn [snd log].
    rewrite !count_create_app, !count_encode_app, Hc, He.
    destruct (messages w); cbn; lia.
  - rewrite chat_decline_run. cbn [snd log].
    rewrite !count_create_app, !count_encode_app, Hc, He.
    destruct (messages w); cbn; lia.
Qed.

End TurnFurther.

(* ================================================================= *)
(** ** Further properties of a run and of a session *)

Lemma paired_app (l l' : list message) :
  paired l -> paired l' -> paired (l ++ l').
Proof.
  intros Hl Hl'.
  assert (H : forall l, (paired l -> paired (l ++ l'))
                        /\ forall u, paired (u :: l) ->
                                     paired ((u :: l) ++ l')).
  { clear l Hl. induction l as [|a l [IH1 IH2]]; split; try easy.
    - apply IH2.
    - intros u (Hu & Ha & Hp). cbn [app paired]. repeat split; trivial.
      now apply IH1. }
  now apply H.
Qed.

Lemma show_history_loop (l : list message) (w : world) :
  for_each
    (fun (_ : unit) (message : message) =>
       emit (StChatMessage (Msg.role message) (Msg.content message)))
    l tt w
  = (tt, {| messages := messages w; log := log w ++ map render l |}).
Proof.
  revert w. induction l as [|m l IH]; intros w.
  - simpl. unfold ret. now rewrite app_nil_r, world_eta.
  - cbn [for_each map]. rewrite bind_run. unfold result, after.
    rewrite emit_run. cbn [fst snd]. rewrite IH. cbn [messages log].
    now rewrite <- app_assoc.
Qed.

Lemma show_history_run (w : world) :
  show_history w
  = (tt,
     {| messages := messages w;
        log := log w ++ map render (messages w) |}).
Proof.
  unfold show_history. rewrite bind_run. unfold result, after, get_messages.
  cbn [fst snd]. apply show_history_loop.
Qed.

Section RunFurther.

Variable ndarray : Type.
Variable np_dot : ndarray -> ndarray -> Q.
Variable embed_model : SentenceTransformer ndarray.
Variable client : Groq.

(** X13. A run of the script without a question loads the documents,
    shows every turn of the transcript once, in order, and does nothing
    else: the transcript is unchanged and neither the client nor the
    embedding model is called. *)
Theorem script_run_idle (files : list UploadedFile) (w : world) :
  script_run np_dot files None embed_model client w
  = (tt,
     {| messages := messages w;
        log := log w ++ load_log files ++ map render (messages w) |})
  /\ count_create (load_log files ++ map render (messages w)) = 0
  /\ count_encode (load_log files ++ map render (messages w)) = 0.
Proof.
  split.
  - unfold script_run. rewrite bind_run. unfold result, after.
    rewrite load_documents_eq. cbn [fst snd]. rewrite bind_run.
    unfold result, after. rewrite show_history_run. cbn [fst snd messages log].
    unfold ret. now rewrite <- app_assoc.
  - assert (Hr : forall l, filter is_create (map render l) = []
                           /\ filter is_encode (map render l) = []).
    { induction l as [|m l [IH1 IH2]]; simpl; now split. }
    assert (He : forall l, filter is_create (flat_map file_errors l) = []
                           /\ filter is_encode (flat_map file_errors l) = []).
    { induction l as [|f l [IH1 IH2]]; simpl; [now split|].
      rewrite !filter_app, IH1, IH2. unfold file_errors.
      destruct (extract_text f); simpl; now split. }
    unfold count_create, count_encode.
    rewrite !filter_app. destruct (Hr (messages w)) as [-> ->].
    rewrite !app_nil_r. destruct files as [|f l]; [now split|].
    unfold load_log. rewrite !filter_app.
    destruct (He (f :: l)) as [-> ->]. now split.
Qed.

Lemma paired_chat_turn (prompt : str) (documents : list chunk) (w : world) :
  paired (messages w) ->
  paired
    (messages (after (chat_turn np_dot prompt documents embed_model client) w)).
Proof.
  intros H. unfold after. rewrite chat_turn_run.
  destruct (result _ w).
  - rewrite chat_answer_run. cbn [snd messages]. rewrite keeps_chat_search.
    apply paired_app; [exact H|]. now cbn.
  - rewrite chat_decline_run. cbn [snd messages].
    now rewrite keeps_chat_search.
Qed.

Lemma paired_script_run (files : list UploadedFile) (input : option str)
    (w : world) :
  paired (messages w) ->
  paired
    (messages
       (after (script_run np_dot files input embed_model client) w)).
Proof.
  intros H. unfold script_run. rewrite !after_bind.
  assert (Hw : messages (after show_history
                           (after (load_documents files) w)) = messages w).
  { now rewrite keeps_show_history, keeps_load_documents. }
  destruct input as [[|c prompt']|].
  - unfold ret, after at 1. cbn [snd]. now rewrite Hw.
  - apply paired_chat_turn. now rewrite Hw.
  - unfold ret, after at 1. cbn [snd]. now rewrite Hw.
Qed.

(** How a run passes the sidebar.  When the clear button was clicked the
    transcript is emptied and the run ends there, whatever key, files and
    question it was given.  Otherwise, without a key the run ends with a
    warning and with a key it goes on to the rest of the script. *)
Lemma app_run_gate (files : list UploadedFile) (input : option str)
    (w : world) :
  (forall api_key,
     app_run np_dot api_key files true input embed_model client w
     = (Reruns, {| messages := []; log := log w |}))
  /\ app_run np_dot [] files false input embed_model client w
     = (Stops,
        {| messages := messages w;
           log := log w ++ [StWarning enter_key_warning] |})
  /\ (forall c api_key,
        app_run np_dot (c :: api_key) files false input embed_model client w
        = (Continues,
           after (script_run np_dot files input embed_model client) w)).
Proof.
  split; [reflexivity|]. split; [reflexivity|].
  intros c api_key. unfold app_run, sidebar. rewrite bind_run.
  unfold ret at 1 2. unfold result at 1, after at 1. cbn [fst snd].
  rewrite bind_run. unfold ret. reflexivity.
Qed.

Lemma paired_app_run (i : app_input) (w : world) :
  paired (messages w) ->
  paired
    (messages
       (after
          (app_run np_dot (in_api_key i) (in_files i) (in_clear i)
             (in_chat i) embed_model client) w)).
Proof.
  intros H. destruct (in_clear i) eqn:Ec.
  - exact I.
  - destruct (in_api_key i) as [|c k] eqn:Ek.
    + exact H.
    + unfold app_run, sidebar. rewrite after_bind.
      unfold ret at 1 2. unfold result at 1, after at 2. cbn [fst snd].
      rewrite after_bind. unfold ret, after at 1. cbn [snd].
      now apply paired_script_run.
Qed.

End RunFurther.

(** X15. The transcript stays a sequence of exchanges, a user turn
    followed by an assistant turn, over any runs of the script: with or
    without a key, a question or a click on the clear button.  A question
    is never stored without its answer. *)
Theorem app_session_paired {ndarray : Type}
    (np_dot : ndarray -> ndarray -> Q)
    (embed_model : SentenceTransformer ndarray) (client : Groq)
    (inputs : list app_input) (w : world) :
  paired (messages w) ->
  paired (messages (after (app_session np_dot embed_model client inputs) w)).
Proof.
  unfold app_session. revert w.
  induction inputs as [|i inputs IH]; intros w H.
  - exact H.
  - cbn [for_each]. rewrite after_bind. cbv beta.
    match goal with
    | |- context [for_each _ inputs ?r] => destruct r
    end.
    apply IH. rewrite after_bind. unfold ret, after at 1. cbn [snd].
    now apply paired_app_run.
Qed.

Lemma app_session_paired_witness :
  paired
    (messages
       (after
          (app_session dot_exact stub_model stub_client
             [ mkInput (lit "key") [] false (Some what_about_hotels);
               mkInput [] [] false (Some what_about_hotels);
               mkInput (lit "key") [] true None;
               mkInput (lit "key") [two_page_pdf] false
                 (Some what_about_hotels) ])
          empty_world)).
Proof.
  apply (app_session_paired dot_exact stub_model stub_client).
  exact I.
Defined.

(** X14. While no key is entered nothing is processed: over any runs
    without a key, whatever files and questions they are given, the client
    and the embedding model are never called, and the transcript is left as
    it was or, after a click on the clear button, empty. *)
Theorem app_session_no_key {ndarray : Type}
    (np_dot : ndarray -> ndarray -> Q)
    (embed_model : SentenceTransformer ndarray) (client : Groq)
    (inputs : list app_input) (w : world) :
  Forall (fun i => in_api_key i = []) inputs ->
  let w' := after (app_session np_dot embed_model client inputs) w in
  (messages w' = messages w \/ messages w' = [])
  /\ count_create (log w') = count_create (log w)
  /\ count_encode (log w') = count_encode (log w).
Proof.
  intros Hk. cbv zeta. unfold app_session. revert w.
  induction Hk as [|i inputs Hi Hk IH]; intros w.
  - cbn. tauto.
  - cbn [for_each]. rewrite after_bind. cbv beta. rewrite Hi.
    match goal with
    | |- context [for_each _ inputs ?r] => destruct r
    end.
    match goal with
    | |- context [after (for_each _ inputs tt) ?w1] =>
        destruct (IH w1) as (Hm & Hc & He);
        assert (H1 : (messages w1 = messages w \/ messages w1 = [])
                     /\ count_create (log w1) = count_create (log w)
                     /\ count_encode (log w1) = count_encode (log w))
    end.
    { rewrite after_bind. unfold ret, after. cbn [snd].
      destruct (in_clear i).
      - rewrite (proj1 (app_run_gate ndarray np_dot embed_model client
                          (in_files i) (in_chat i) w)).
        cbn [snd messages log]. tauto.
      - rewrite (proj1 (proj2 (app_run_gate ndarray np_dot embed_model client
                                 (in_files i) (in_chat i) w))).
        cbn [snd messages log].
        rewrite count_create_app, count_encode_app. cbn. split; [tauto|lia]. }
    destruct H1 as (Hm1 & Hc1 & He1).
    rewrite Hc, He, Hc1, He1. split; [|tauto].
    destruct Hm as [Hm|Hm]; [|tauto]. rewrite Hm. exact Hm1.
Qed.

Lemma app_session_no_key_witness :
  count_create
    (log
       (after
          (app_session dot_exact stub_model stub_client
             [ mkInput [] [two_page_pdf] false (Some what_about_hotels);
               mkInput [] [] true None ])
          world_one_exchange))
  = 0.
Proof.
  apply (app_session_no_key dot_exact stub_model stub_client
           [ mkInput [] [two_page_pdf] false (Some what_about_hotels);
             mkInput [] [] true None ]
           world_one_exchange).
  repeat constructor.
Defined.
